(** * kafka-topicctl: export and import of Kafka topic definitions

    A shallow embedding of [kafka-client/main.go].  Go strings are byte
    strings ([string], one [ascii] per byte), [int32] and [int16] are [Z],
    Go maps are [gmap]s, a slice is a list that may be nil, and the
    functions that talk to the cluster, the file system or the terminal
    thread a [World] through their calls. *)

From Stdlib Require Import ZArith String Ascii List Bool Lia.
From stdpp Require Import base option list sorting strings gmap fin_maps.

#[local] Set Warnings "-register-all,-clear-no-such-hyp,-abstract-large-number".
Local Open Scope Z_scope.

(** ** Go values *)

(** A slice [[]T] is [nil] or a run of elements; [len], [range] and
    [append] do not tell a nil slice from an empty one, the JSON encoder
    does. *)
Definition slice (A : Type) : Type := option (list A).

Definition slice_elems {A} (s : slice A) : list A := default [] s.

(** [append(s, x)] *)
Definition append {A} (s : slice A) (x : A) : slice A := Some (slice_elems s ++ [x]).

(** A map [map[string]V] that may be nil; reading a nil map is reading an
    empty one. *)
Definition gomap (V : Type) : Type := option (gmap string V).

Definition gomap_entries {V} (m : gomap V) : gmap string V := default ∅ m.

(** [s1 < s2] on Go strings: bytewise lexicographic order. *)
Definition string_lt (s1 s2 : string) : bool := String.ltb s1 s2.

(** ** The data model (main.go, lines 14-27) *)

Record Topic := mkTopic {
  Name : string;
  Partitions : Z;          (* int32 *)
  ReplicationFactor : Z;   (* int16 *)
  Configs : gomap string   (* map[string]string, json "configs,omitempty" *)
}.

Record ExportFile := mkExportFile {
  KafkaVersion : string;
  ExportTime : string;
  Topics : slice Topic
}.

(** [sarama.TopicDetail], the fields the tool reads and writes. *)
Record TopicDetail := mkTopicDetail {
  NumPartitions : Z;                         (* int32 *)
  TD_ReplicationFactor : Z;                  (* int16 *)
  ConfigEntries : gmap string (option string) (* map[string]*string *)
}.

(** ** What the Go runtime and library leave open *)

(** [sort.Slice(x, less)]: the library promises a permutation of [x] in
    which no later element is [less] than an earlier one, whenever [less]
    is a strict weak order; it does not promise which algorithm runs. *)
Record StrictWeak {A} (less : A → A → bool) : Prop := {
  sw_irrefl : ∀ a, less a a = false;
  sw_trans : ∀ a b c, less a b = true → less b c = true → less a c = true;
  sw_incomp : ∀ a b c, less a b = false → less b c = false → less a c = false
}.

Class Sorter := {
  sort_by : ∀ {A}, (A → A → bool) → list A → list A;
  sort_by_perm : ∀ A (less : A → A → bool) l, sort_by less l ≡ₚ l;
  sort_by_sorted : ∀ A (less : A → A → bool) l,
    StrictWeak less → StronglySorted (λ a b, less b a = false) (sort_by less l)
}.

(** The order in which [for k, v := range m] visits a map is chosen by the
    runtime, anew for each loop. [range_of site m] is the order of the loop
    numbered [site] of one run. *)
Record RangeOrder := {
  range_of : ∀ {V}, nat → gmap string V → list (string * V);
  range_of_perm : ∀ V (site : nat) (m : gmap string V), range_of site m ≡ₚ map_to_list m
}.

(** ** exportTopics, the loop and the sort (lines 50-82) *)

(** [len(name) >= 2 && name[:2] == "__"] *)
Definition is_internal (name : string) : bool :=
  (2 <=? String.length name)%nat && String.eqb (substring 0 2 name) "__".

(** Lines 57-64: [map[string]*string] to [map[string]string]. *)
Definition copy_configs (entries : list (string * option string)) : gmap string string :=
  foldl (λ configs kv,
           match kv.2 with
           | Some v => <[kv.1 := v]> configs
           | None => <[kv.1 := ""]> configs
           end) ∅ entries.

(** One round of the loop of line 51; [site] numbers the inner loop. *)
Definition export_step (ord : RangeOrder) (excludeInternal : bool)
    (acc : slice Topic * nat) (kv : string * TopicDetail) : slice Topic * nat :=
  let '(result, site) := acc in
  let '(name, detail) := kv in
  if excludeInternal && is_internal name then (result, site)
  else
    let configs := copy_configs (range_of ord site (ConfigEntries detail)) in
    (append result {| Name := name;
                      Partitions := NumPartitions detail;
                      ReplicationFactor := TD_ReplicationFactor detail;
                      Configs := Some configs |},
     S site).

(** The loop of lines 51-72: the slice it builds and the number of map
    walks begun so far (the walk over [topics] is walk 0). *)
Definition export_loop (ord : RangeOrder) (excludeInternal : bool)
    (topics : gmap string TopicDetail) : slice Topic * nat :=
  foldl (export_step ord excludeInternal) (None, 1%nat) (range_of ord 0 topics).

Definition export_collect (ord : RangeOrder) (excludeInternal : bool)
    (topics : gmap string TopicDetail) : slice Topic :=
  fst (export_loop ord excludeInternal topics).

(** The [less] of line 74, on the elements it compares. *)
Definition topic_less (a b : Topic) : bool := string_lt (Name a) (Name b).

(** [sort.Slice] on a slice header: a nil slice has nothing to sort. *)
Definition sort_Slice `{Sorter} {A} (less : A → A → bool) (s : slice A) : slice A :=
  sort_by less <$> s.

Definition export_topics_sorted `{Sorter} (ord : RangeOrder) (excludeInternal : bool)
    (topics : gmap string TopicDetail) : slice Topic :=
  sort_Slice topic_less (export_collect ord excludeInternal topics).

(** Lines 50-82: the document of one export. *)
Definition export_file `{Sorter} (ord : RangeOrder) (excludeInternal : bool)
    (now : string) (topics : gmap string TopicDetail) : ExportFile :=
  {| KafkaVersion := "2.4.0";
     ExportTime := now;
     Topics := export_topics_sorted ord excludeInternal topics |}.

(** ** Bytes, and the [unicode/utf8] functions the JSON codec calls *)

Definition b2z (b : ascii) : Z := Z.of_N (N_of_ascii b).

(** [byte(x)]: the low eight bits. *)
Definition z2b (x : Z) : ascii := ascii_of_N (Z.to_N (x mod 256)).

Definition bytes_of (s : string) : list ascii := list_ascii_of_string s.
Definition string_of (l : list ascii) : string := string_of_list_ascii l.

Module utf8.

Definition RuneError : Z := 0xFFFD.
Definition RuneSelf : Z := 0x80.
Definition MaxRune : Z := 0x10FFFF.

(** What the table [first] says of a leading byte: one ASCII byte, an
    invalid leader, or the size of the sequence and the range the second
    byte must lie in ([acceptRanges]). *)
Inductive lead :=
| LeadAscii
| LeadInvalid
| LeadMulti (sz : nat) (lo hi : Z).

Definition first (s0 : Z) : lead :=
  if s0 <? 0x80 then LeadAscii
  else if s0 <? 0xC2 then LeadInvalid
  else if s0 <? 0xE0 then LeadMulti 2 0x80 0xBF
  else if s0 =? 0xE0 then LeadMulti 3 0xA0 0xBF
  else if s0 <? 0xED then LeadMulti 3 0x80 0xBF
  else if s0 =? 0xED then LeadMulti 3 0x80 0x9F
  else if s0 <? 0xF0 then LeadMulti 3 0x80 0xBF
  else if s0 =? 0xF0 then LeadMulti 4 0x90 0xBF
  else if s0 <? 0xF4 then LeadMulti 4 0x80 0xBF
  else if s0 =? 0xF4 then LeadMulti 4 0x80 0x8F
  else LeadInvalid.

Definition at_ (s : list ascii) (i : nat) : Z := b2z (nth i s "000"%char).

(** [utf8.DecodeRune]: the first rune of [s] and its width in bytes;
    [(RuneError, 1)] on an invalid or truncated sequence, [(RuneError, 0)]
    on the empty string. *)
Definition DecodeRune (s : list ascii) : Z * nat :=
  let n := length s in
  if (n <? 1)%nat then (RuneError, 0%nat)
  else
    let s0 := at_ s 0 in
    match first s0 with
    | LeadAscii => (s0, 1%nat)
    | LeadInvalid => (RuneError, 1%nat)
    | LeadMulti sz lo hi =>
      if (n <? sz)%nat then (RuneError, 1%nat)
      else
        let s1 := at_ s 1 in
        if (s1 <? lo) || (hi <? s1) then (RuneError, 1%nat)
        else if (sz <=? 2)%nat then
          (Z.lor (Z.shiftl (Z.land s0 0x1F) 6) (Z.land s1 0x3F), 2%nat)
        else
          let s2 := at_ s 2 in
          if (s2 <? 0x80) || (0xBF <? s2) then (RuneError, 1%nat)
          else if (sz <=? 3)%nat then
            (Z.lor (Z.lor (Z.shiftl (Z.land s0 0x0F) 12) (Z.shiftl (Z.land s1 0x3F) 6))
                   (Z.land s2 0x3F), 3%nat)
          else
            let s3 := at_ s 3 in
            if (s3 <? 0x80) || (0xBF <? s3) then (RuneError, 1%nat)
            else
              (Z.lor (Z.lor (Z.lor (Z.shiftl (Z.land s0 0x07) 18)
                                   (Z.shiftl (Z.land s1 0x3F) 12))
                            (Z.shiftl (Z.land s2 0x3F) 6))
                     (Z.land s3 0x3F), 4%nat)
    end.

(** [utf8.EncodeRune] (and [AppendRune]): a rune outside the Unicode range
    or a surrogate half is written as U+FFFD. *)
Definition EncodeRune (r : Z) : list ascii :=
  let three (r : Z) :=
    [z2b (Z.lor 0xE0 (Z.shiftr r 12));
     z2b (Z.lor 0x80 (Z.land (Z.shiftr r 6) 0x3F));
     z2b (Z.lor 0x80 (Z.land r 0x3F))] in
  if (0 <=? r) && (r <=? 0x7F) then [z2b r]
  else if (0 <=? r) && (r <=? 0x7FF) then
    [z2b (Z.lor 0xC0 (Z.shiftr r 6)); z2b (Z.lor 0x80 (Z.land r 0x3F))]
  else if (r <? 0) || (MaxRune <? r) || ((0xD800 <=? r) && (r <=? 0xDFFF)) then
    three RuneError
  else if r <=? 0xFFFF then three r
  else
    [z2b (Z.lor 0xF0 (Z.shiftr r 18));
     z2b (Z.lor 0x80 (Z.land (Z.shiftr r 12) 0x3F));
     z2b (Z.lor 0x80 (Z.land (Z.shiftr r 6) 0x3F));
     z2b (Z.lor 0x80 (Z.land r 0x3F))].

(** [utf8.Valid]: every rune decodes; a decoding step that yields
    [(RuneError, 1)] marks an invalid byte. *)
Fixpoint valid_loop (fuel : nat) (s : list ascii) : bool :=
  match fuel with
  | O => true
  | S fuel =>
    match s with
    | [] => true
    | _ :: _ =>
      let '(r, size) := DecodeRune s in
      if (r =? RuneError) && (size =? 1)%nat then false
      else valid_loop fuel (drop size s)
    end
  end.

Definition Valid (s : list ascii) : bool := valid_loop (length s) s.

Definition ValidString (s : string) : bool := Valid (bytes_of s).

End utf8.

(** ** Errors *)

(** The [error] values the program can meet. *)
Inductive error :=
| KError (code : Z)                  (* sarama.KError, as the broker answers *)
| ErrConnect (broker : string)       (* no administrative session *)
| PathError (op path : string)       (* *fs.PathError of os.ReadFile, os.WriteFile *)
| SyntaxError                        (* *json.SyntaxError *)
| UnmarshalTypeError (value : string)
| UnsupportedTypeError (kind : string).

Definition ErrTopicAuthorizationFailed : error := KError 29.
Definition ErrTopicAlreadyExists : error := KError 36.
Definition ErrInvalidPartitions : error := KError 37.
Definition ErrInvalidReplicationFactor : error := KError 38.

Inductive result (A : Type) :=
| Ok (a : A)
| Err (e : error).
Arguments Ok {A} a.
Arguments Err {A} e.

Definition rbind {A B} (r : result A) (f : A → result B) : result B :=
  match r with Ok a => f a | Err e => Err e end.

Notation "x ←r e1 ; e2" := (rbind e1 (λ x, e2))
  (at level 20, e1 at level 100, e2 at level 200, right associativity, only parsing).

(** The error half of a [(value, error)] pair. *)
Definition err_of {A} (r : result A) : option error :=
  match r with Ok _ => None | Err e => Some e end.

(** ** Characters *)

Definition c_quote : ascii := "034"%char.
Definition c_backslash : ascii := "092"%char.
Definition c_newline : ascii := "010"%char.
Definition c_tab : ascii := "009"%char.
Definition c_return : ascii := "013"%char.
Definition c_backspace : ascii := "008"%char.
Definition c_formfeed : ascii := "012"%char.

Definition ascii_eqb (a b : ascii) : bool := Ascii.eqb a b.

(** ** encoding/json, as far as [ExportFile] reaches it *)

Module json.

(** *** Encoding: [json.MarshalIndent(v, "", "  ")] *)

(** The values the encoder walks by reflection.  A map is given by its
    entries in the order the runtime hands them out; the encoder sorts
    them by key. *)
Inductive GoValue :=
| GoString (s : string)
| GoInt (n : Z)
| GoBool (b : bool)
| GoSlice (xs : option (list GoValue))
| GoMap (kvs : option (list (string * GoValue)))
| GoStruct (fields : list (string * bool * GoValue))  (* json name, omitempty, value *)
| GoChan
| GoFunc.

Definition hex (n : Z) : ascii := nth (Z.to_nat n) (bytes_of "0123456789abcdef") "0"%char.

(** [htmlSafeSet]: the ASCII bytes that are written as they are. *)
Definition htmlSafe (b : Z) : bool :=
  (0x20 <=? b) && (b <? 0x80) &&
  negb ((b =? 34) || (b =? 38) || (b =? 60) || (b =? 62) || (b =? 92)).

Definition escape_ascii (b : ascii) : list ascii :=
  if ascii_eqb b c_backslash || ascii_eqb b c_quote then [c_backslash; b]
  else if ascii_eqb b c_backspace then [c_backslash; "b"%char]
  else if ascii_eqb b c_formfeed then [c_backslash; "f"%char]
  else if ascii_eqb b c_newline then [c_backslash; "n"%char]
  else if ascii_eqb b c_return then [c_backslash; "r"%char]
  else if ascii_eqb b c_tab then [c_backslash; "t"%char]
  else [c_backslash; "u"%char; "0"%char; "0"%char;
        hex (Z.shiftr (b2z b) 4); hex (Z.land (b2z b) 0xF)].

(** The loop of [appendString] with [escapeHTML] set; [fuel] bounds the
    number of rounds, one round consumes at least one byte. *)
Fixpoint appendString_loop (fuel : nat) (src : list ascii) : list ascii :=
  match fuel with
  | O => []
  | S fuel =>
    match src with
    | [] => []
    | b :: rest =>
      if b2z b <? utf8.RuneSelf then
        (if htmlSafe (b2z b) then [b] else escape_ascii b) ++ appendString_loop fuel rest
      else
        let '(c, size) := utf8.DecodeRune (take 4 src) in
        if (c =? utf8.RuneError) && (size =? 1)%nat then
          c_backslash :: bytes_of "ufffd" ++ appendString_loop fuel rest
        else if (c =? 0x2028) || (c =? 0x2029) then
          c_backslash :: bytes_of "u202" ++ hex (Z.land c 0xF) ::
            appendString_loop fuel (drop size src)
        else
          take size src ++ appendString_loop fuel (drop size src)
    end
  end.

Definition appendString (s : string) : list ascii :=
  c_quote :: appendString_loop (String.length s) (bytes_of s) ++ [c_quote].

(** [strconv.AppendInt(b, n, 10)] *)
Fixpoint digits_loop (fuel : nat) (n : Z) (acc : list ascii) : list ascii :=
  match fuel with
  | O => acc
  | S fuel =>
    let acc := z2b (48 + n mod 10) :: acc in
    if n <? 10 then acc else digits_loop fuel (n / 10) acc
  end.

Definition format_uint (n : Z) : list ascii := digits_loop (S (Z.to_nat (Z.log2 n))) n [].

Definition AppendInt (n : Z) : list ascii :=
  if n <? 0 then "-"%char :: format_uint (- n) else format_uint n.

(** [isEmptyValue], which decides [omitempty]. *)
Definition isEmptyValue (v : GoValue) : bool :=
  match v with
  | GoString s => (String.length s =? 0)%nat
  | GoInt n => n =? 0
  | GoBool b => negb b
  | GoSlice xs => (length (default [] xs) =? 0)%nat
  | GoMap kvs => (length (default [] kvs) =? 0)%nat
  | GoStruct _ | GoChan | GoFunc => false
  end.

(** A line break and the indentation of nesting level [depth]: the prefix
    is empty and the indent is two spaces. *)
Definition newline (depth : nat) : list ascii :=
  c_newline :: concat (replicate depth [" "%char; " "%char]).

(** The members of an object or the elements of an array, one per line. *)
Definition join_lines (depth : nat) (items : list (list ascii)) : list ascii :=
  match items with
  | [] => []
  | first :: more =>
    newline (S depth) ++ first
      ++ concat (map (λ it, ","%char :: newline (S depth) ++ it) more)
      ++ newline depth
  end.

Definition member (key : string) (text : list ascii) : list ascii :=
  appendString key ++ ":"%char :: " "%char :: text.

(** Run [f] over a list, stopping at the first error. *)
Definition traverse {A B} (f : A → result B) : list A → result (list B) :=
  fix go (l : list A) : result (list B) :=
    match l with
    | [] => Ok []
    | a :: l => b ←r f a; bs ←r go l; Ok (b :: bs)
    end.

Definition key_less {V} (a b : string * V) : bool := string_lt a.1 b.1.

(** One member of an object: its key and the text of its value, or the
    error met in encoding it. *)
Definition member_of (e : string * result (list ascii)) : result (list ascii) :=
  text ←r e.2; Ok (member e.1 text).

Definition object_text (depth : nat) (members : list (string * result (list ascii)))
    : result (list ascii) :=
  items ←r traverse member_of members;
  Ok ("{"%char :: join_lines depth items ++ ["}"%char]).

(** The text of [v] at nesting level [depth].  Map entries are written in
    key order; a struct field tagged [omitempty] is left out, unvisited,
    when its value is empty. *)
Fixpoint encode `{Sorter} (depth : nat) (v : GoValue) {struct v} : result (list ascii) :=
  match v with
  | GoString s => Ok (appendString s)
  | GoInt n => Ok (AppendInt n)
  | GoBool b => Ok (bytes_of (if b then "true" else "false"))
  | GoSlice None => Ok (bytes_of "null")
  | GoSlice (Some xs) =>
    items ←r traverse (λ r : result (list ascii), r) (map (encode (S depth)) xs);
    Ok ("["%char :: join_lines depth items ++ ["]"%char])
  | GoMap None => Ok (bytes_of "null")
  | GoMap (Some kvs) =>
    object_text depth
      (sort_by key_less
         (map (λ kv : string * GoValue, (kv.1, encode (S depth) kv.2)) kvs))
  | GoStruct fields =>
    object_text depth
      (map (λ f : string * bool * result (list ascii), (f.1.1, f.2))
         (List.filter (λ f : string * bool * result (list ascii), negb f.1.2)
            (map (λ f : string * bool * GoValue,
                    (f.1.1, f.1.2 && isEmptyValue f.2, encode (S depth) f.2)) fields)))
  | GoChan => Err (UnsupportedTypeError "chan")
  | GoFunc => Err (UnsupportedTypeError "func")
  end.

Definition MarshalIndent `{Sorter} (v : GoValue) : result string :=
  text ←r encode 0 v; Ok (string_of text).

(** *** Decoding: the scanner *)

(** A JSON text as the scanner reads it. A number keeps its spelling, a
    string is already unquoted. *)
Inductive jvalue :=
| JNull
| JBool (b : bool)
| JNumber (lit : list ascii)
| JString (s : string)
| JArray (elems : list jvalue)
| JObject (members : list (string * jvalue)).

Definition maxNestingDepth : nat := 10000.

Definition isSpace (c : ascii) : bool :=
  ascii_eqb c " "%char || ascii_eqb c c_tab || ascii_eqb c c_return || ascii_eqb c c_newline.

Fixpoint skip_space (s : list ascii) : list ascii :=
  match s with
  | c :: t => if isSpace c then skip_space t else s
  | [] => []
  end.

Definition is_digit (c : ascii) : bool := (48 <=? b2z c) && (b2z c <=? 57).

Definition is_hex (c : ascii) : bool :=
  is_digit c || ((97 <=? b2z c) && (b2z c <=? 102)) || ((65 <=? b2z c) && (b2z c <=? 70)).

Fixpoint span_digits (s : list ascii) : list ascii * list ascii :=
  match s with
  | c :: t => if is_digit c then let '(ds, r) := span_digits t in (c :: ds, r) else ([], s)
  | [] => ([], [])
  end.

(** The number states of the scanner: an optional minus, [0] or a run of
    digits that does not start with [0], an optional fraction, an optional
    exponent. *)
Definition scan_number (s : list ascii) : option (list ascii * list ascii) :=
  let '(sign, s) := match s with
                    | c :: t => if ascii_eqb c "-"%char then ([c], t) else ([], s)
                    | [] => ([], s)
                    end in
  '(int, s) ← match s with
              | c :: t =>
                if ascii_eqb c "0"%char then Some ([c], t)
                else if is_digit c then let '(ds, r) := span_digits t in Some (c :: ds, r)
                else None
              | [] => None
              end;
  '(frac, s) ← match s with
               | c :: t =>
                 if ascii_eqb c "."%char then
                   let '(ds, r) := span_digits t in
                   if ds is [] then None else Some (c :: ds, r)
                 else Some ([], s)
               | [] => Some ([], s)
               end;
  '(exp, s) ← match s with
              | c :: t =>
                if ascii_eqb c "e"%char || ascii_eqb c "E"%char then
                  let '(sg, t) := match t with
                                  | d :: u =>
                                    if ascii_eqb d "+"%char || ascii_eqb d "-"%char
                                    then ([d], u) else ([], t)
                                  | [] => ([], t)
                                  end in
                  let '(ds, r) := span_digits t in
                  if ds is [] then None else Some (c :: sg ++ ds, r)
                else Some ([], s)
              | [] => Some ([], s)
              end;
  Some (sign ++ int ++ frac ++ exp, s).

(** The string states of the scanner, entered after the opening quote:
    the raw bytes up to the closing quote, and what follows it. *)
Fixpoint scan_string (s : list ascii) : option (list ascii * list ascii) :=
  match s with
  | [] => None
  | c :: t =>
    if ascii_eqb c c_quote then Some ([], t)
    else if ascii_eqb c c_backslash then
      match t with
      | e :: t1 =>
        if ascii_eqb e "b"%char || ascii_eqb e "f"%char || ascii_eqb e "n"%char
           || ascii_eqb e "r"%char || ascii_eqb e "t"%char || ascii_eqb e c_backslash
           || ascii_eqb e "/"%char || ascii_eqb e c_quote
        then '(raw, r) ← scan_string t1; Some (c :: e :: raw, r)
        else if ascii_eqb e "u"%char then
          match t1 with
          | h1 :: h2 :: h3 :: h4 :: t2 =>
            if is_hex h1 && is_hex h2 && is_hex h3 && is_hex h4
            then '(raw, r) ← scan_string t2; Some (c :: e :: h1 :: h2 :: h3 :: h4 :: raw, r)
            else None
          | _ => None
          end
        else None
      | [] => None
      end
    else if b2z c <? 0x20 then None
    else '(raw, r) ← scan_string t; Some (c :: raw, r)
  end.

Definition hex_value (c : ascii) : Z :=
  if is_digit c then b2z c - 48
  else if (97 <=? b2z c) && (b2z c <=? 102) then b2z c - 97 + 10
  else if (65 <=? b2z c) && (b2z c <=? 70) then b2z c - 65 + 10
  else -1.

(** [getu4]: the rune of a [\uXXXX] escape at the head of [s], or [-1]. *)
Definition getu4 (s : list ascii) : Z :=
  match s with
  | b :: u :: h1 :: h2 :: h3 :: h4 :: _ =>
    if ascii_eqb b c_backslash && ascii_eqb u "u"%char
       && is_hex h1 && is_hex h2 && is_hex h3 && is_hex h4
    then hex_value h1 * 4096 + hex_value h2 * 256 + hex_value h3 * 16 + hex_value h4
    else -1
  | _ => -1
  end.

(** [utf16.IsSurrogate] and [utf16.DecodeRune]. *)
Definition IsSurrogate (r : Z) : bool := (0xD800 <=? r) && (r <? 0xE000).

Definition utf16_DecodeRune (r1 r2 : Z) : Z :=
  if (0xD800 <=? r1) && (r1 <? 0xDC00) && (0xDC00 <=? r2) && (r2 <? 0xE000)
  then Z.lor (Z.shiftl (r1 - 0xD800) 10) (r2 - 0xDC00) + 0x10000
  else utf8.RuneError.

(** The loop of [unquoteBytes] over the bytes between the quotes; [None]
    is its [ok = false]. *)
Fixpoint unquote_loop (fuel : nat) (s : list ascii) : option (list ascii) :=
  match fuel with
  | O => if s is [] then Some [] else None
  | S fuel =>
    match s with
    | [] => Some []
    | c :: t =>
      if ascii_eqb c c_backslash then
        match t with
        | [] => None
        | e :: t1 =>
          let simple (b : ascii) := (out ← unquote_loop fuel t1; Some (b :: out)) in
          if ascii_eqb e c_quote || ascii_eqb e c_backslash || ascii_eqb e "/"%char
             || ascii_eqb e "'"%char then simple e
          else if ascii_eqb e "b"%char then simple c_backspace
          else if ascii_eqb e "f"%char then simple c_formfeed
          else if ascii_eqb e "n"%char then simple c_newline
          else if ascii_eqb e "r"%char then simple c_return
          else if ascii_eqb e "t"%char then simple c_tab
          else if ascii_eqb e "u"%char then
            let rr := getu4 s in
            if rr <? 0 then None
            else
              let s6 := drop 6 s in
              if IsSurrogate rr then
                let dec := utf16_DecodeRune rr (getu4 s6) in
                if negb (dec =? utf8.RuneError) then
                  out ← unquote_loop fuel (drop 6 s6); Some (utf8.EncodeRune dec ++ out)
                else
                  out ← unquote_loop fuel s6; Some (utf8.EncodeRune utf8.RuneError ++ out)
              else
                out ← unquote_loop fuel s6; Some (utf8.EncodeRune rr ++ out)
          else None
        end
      else if ascii_eqb c c_quote || (b2z c <? 0x20) then None
      else if b2z c <? utf8.RuneSelf then
        out ← unquote_loop fuel t; Some (c :: out)
      else
        let '(rr, size) := utf8.DecodeRune s in
        out ← unquote_loop fuel (drop size s); Some (utf8.EncodeRune rr ++ out)
    end
  end.

Definition unquote (raw : list ascii) : option string :=
  string_of <$> unquote_loop (length raw) raw.

Definition scan_literal (word : string) (v : jvalue) (s : list ascii)
    : option (jvalue * list ascii) :=
  let w := bytes_of word in
  if decide (take (length w) s = w) then Some (v, drop (length w) s) else None.

(** One value at the head of [s], inside [depth] open arrays and objects,
    and the text after it. [fuel] bounds the calls; twice the length of
    the text is enough. *)
Fixpoint scan_value (fuel : nat) (depth : nat) (s : list ascii) {struct fuel}
    : option (jvalue * list ascii) :=
  match fuel with
  | O => None
  | S fuel =>
    match s with
    | [] => None
    | c :: t =>
      if ascii_eqb c "{"%char then
        if (maxNestingDepth <? S depth)%nat then None
        else
          match skip_space t with
          | c1 :: t1 =>
            if ascii_eqb c1 "}"%char then Some (JObject [], t1)
            else '(ms, r) ← scan_members fuel (S depth) (c1 :: t1); Some (JObject ms, r)
          | [] => None
          end
      else if ascii_eqb c "["%char then
        if (maxNestingDepth <? S depth)%nat then None
        else
          match skip_space t with
          | c1 :: t1 =>
            if ascii_eqb c1 "]"%char then Some (JArray [], t1)
            else '(vs, r) ← scan_elems fuel (S depth) (c1 :: t1); Some (JArray vs, r)
          | [] => None
          end
      else if ascii_eqb c c_quote then
        '(raw, r) ← scan_string t; str ← unquote raw; Some (JString str, r)
      else if ascii_eqb c "-"%char || is_digit c then
        '(lit, r) ← scan_number s; Some (JNumber lit, r)
      else if ascii_eqb c "t"%char then scan_literal "true" (JBool true) s
      else if ascii_eqb c "f"%char then scan_literal "false" (JBool false) s
      else if ascii_eqb c "n"%char then scan_literal "null" JNull s
      else None
    end
  end
with scan_elems (fuel : nat) (depth : nat) (s : list ascii) {struct fuel}
    : option (list jvalue * list ascii) :=
  match fuel with
  | O => None
  | S fuel =>
    '(v, r) ← scan_value fuel depth s;
    match skip_space r with
    | c :: t =>
      if ascii_eqb c ","%char then
        '(vs, r') ← scan_elems fuel depth (skip_space t); Some (v :: vs, r')
      else if ascii_eqb c "]"%char then Some ([v], t)
      else None
    | [] => None
    end
  end
with scan_members (fuel : nat) (depth : nat) (s : list ascii) {struct fuel}
    : option (list (string * jvalue) * list ascii) :=
  match fuel with
  | O => None
  | S fuel =>
    match s with
    | q :: t0 =>
      if ascii_eqb q c_quote then
        '(raw, r0) ← scan_string t0;
        key ← unquote raw;
        match skip_space r0 with
        | c0 :: t1 =>
          if ascii_eqb c0 ":"%char then
            '(v, r) ← scan_value fuel depth (skip_space t1);
            match skip_space r with
            | c :: t =>
              if ascii_eqb c ","%char then
                '(ms, r') ← scan_members fuel depth (skip_space t); Some ((key, v) :: ms, r')
              else if ascii_eqb c "}"%char then Some ([(key, v)], t)
              else None
            | [] => None
            end
          else None
        | [] => None
        end
      else None
    | [] => None
    end
  end.

(** [checkValid] and the walk over the text in one: the whole of [data]
    is one value between optional spaces, or the text is refused. *)
Definition scan (data : string) : option jvalue :=
  let s := skip_space (bytes_of data) in
  '(v, r) ← scan_value (2 * length s) 0 s;
  if skip_space r is [] then Some v else None.

End json.

(** ** The codec of [ExportFile]: struct tags and field types *)

(** [unicode.SimpleFold] is a table of the Unicode database; the decoder
    reaches it through [foldRune], the least rune of a rune's case-folding
    orbit. *)
Class Unicode := { foldRune : Z → Z }.

(** [reflect.ValueOf(t)], with the json names and options of lines 16-19;
    [site] numbers the walk over the [Configs] map. *)
Definition reflect_Topic (ord : RangeOrder) (site : nat) (t : Topic) : json.GoValue :=
  json.GoStruct [
    ("name", false, json.GoString (Name t));
    ("partitions", false, json.GoInt (Partitions t));
    ("replication_factor", false, json.GoInt (ReplicationFactor t));
    ("configs", true,
     json.GoMap ((λ m : gmap string string,
                    map (λ kv : string * string, (kv.1, json.GoString kv.2))
                        (range_of ord site m)) <$> Configs t))
  ].

(** Lines 24-26. *)
Definition reflect_ExportFile (ord : RangeOrder) (site : nat) (f : ExportFile) : json.GoValue :=
  json.GoStruct [
    ("kafka_version", false, json.GoString (KafkaVersion f));
    ("export_time", false, json.GoString (ExportTime f));
    ("topics", false,
     json.GoSlice (imap (λ i t, reflect_Topic ord (site + i) t) <$> Topics f))
  ].

(** [foldName]: ASCII letters to upper case, any other rune to the least
    rune of its orbit. *)
Fixpoint foldName_loop `{Unicode} (fuel : nat) (s : list ascii) : list ascii :=
  match fuel with
  | O => []
  | S fuel =>
    match s with
    | [] => []
    | c :: t =>
      if b2z c <? utf8.RuneSelf then
        (if (97 <=? b2z c) && (b2z c <=? 122) then z2b (b2z c - 32) else c)
          :: foldName_loop fuel t
      else
        let '(r, n) := utf8.DecodeRune s in
        utf8.EncodeRune (foldRune r) ++ foldName_loop fuel (drop n s)
    end
  end.

Definition foldName `{Unicode} (s : string) : list ascii :=
  foldName_loop (String.length s) (bytes_of s).

(** The field a member's key names: the one spelled exactly so, else the
    first one equal to it under case folding; [None] for an unknown key,
    whose value is skipped. *)
Definition find_field `{Unicode} (names : list string) (key : string) : option nat :=
  match list_find (λ n, n = key) names with
  | Some (i, _) => Some i
  | None => fst <$> list_find (λ n, foldName n = foldName key) names
  end.

(** What the decoder calls a value it cannot store. *)
Definition kind_of (j : json.jvalue) : string :=
  match j with
  | json.JNull => "null"
  | json.JBool _ => "bool"
  | json.JNumber _ => "number"
  | json.JString _ => "string"
  | json.JArray _ => "array"
  | json.JObject _ => "object"
  end.

(** Into a [string]: [null] leaves the target as it is. *)
Definition decode_string (cur : string) (j : json.jvalue) : result string :=
  match j with
  | json.JNull => Ok cur
  | json.JString s => Ok s
  | _ => Err (UnmarshalTypeError (kind_of j))
  end.

(** [strconv.ParseInt(lit, 10, 64)] on the spelling of a JSON number: a
    fraction or an exponent is refused. *)
Definition ParseInt (lit : list ascii) : option Z :=
  let '(neg, ds) := match lit with
                    | c :: t => if ascii_eqb c "-"%char then (true, t) else (false, lit)
                    | [] => (false, lit)
                    end in
  if forallb json.is_digit ds && negb (length ds =? 0)%nat then
    let n := foldl (λ acc c, acc * 10 + (b2z c - 48)) 0 ds in
    let n := if neg then - n else n in
    if (- 2 ^ 63 <=? n) && (n <? 2 ^ 63) then Some n else None
  else None.

(** Into an [intN]: the number must be an integer of that width. *)
Definition decode_int (bits : Z) (cur : Z) (j : json.jvalue) : result Z :=
  match j with
  | json.JNull => Ok cur
  | json.JNumber lit =>
    match ParseInt lit with
    | Some n =>
      if (- 2 ^ (bits - 1) <=? n) && (n <? 2 ^ (bits - 1)) then Ok n
      else Err (UnmarshalTypeError ("number " +:+ string_of lit))
    | None => Err (UnmarshalTypeError ("number " +:+ string_of lit))
    end
  | _ => Err (UnmarshalTypeError (kind_of j))
  end.

(** Fold a decoding step over the members or elements read so far,
    stopping at the first error (the decoder itself reads on and reports
    that first error at the end; the caller drops the target then). *)
Definition foldl_result {A B} (f : A → B → result A) : A → list B → result A :=
  fix go (a : A) (l : list B) : result A :=
    match l with
    | [] => Ok a
    | b :: l => a' ←r f a b; go a' l
    end.

(** Into a [map[string]string]: [null] makes the map nil, an object adds
    its members to the map there is, each value decoded into a fresh
    string. *)
Definition decode_Configs (cur : gomap string) (j : json.jvalue) : result (gomap string) :=
  match j with
  | json.JNull => Ok None
  | json.JObject ms =>
    m ←r foldl_result (λ (m : gmap string string) (kv : string * json.jvalue),
                         v ←r decode_string "" kv.2; Ok (<[kv.1 := v]> m))
                      (gomap_entries cur) ms;
    Ok (Some m)
  | _ => Err (UnmarshalTypeError (kind_of j))
  end.

Definition Topic_fields : list string :=
  ["name"; "partitions"; "replication_factor"; "configs"].

Definition decode_Topic_member `{Unicode} (t : Topic) (kv : string * json.jvalue)
    : result Topic :=
  match find_field Topic_fields kv.1 with
  | Some 0%nat =>
    v ←r decode_string (Name t) kv.2;
    Ok (mkTopic v (Partitions t) (ReplicationFactor t) (Configs t))
  | Some 1%nat =>
    v ←r decode_int 32 (Partitions t) kv.2;
    Ok (mkTopic (Name t) v (ReplicationFactor t) (Configs t))
  | Some 2%nat =>
    v ←r decode_int 16 (ReplicationFactor t) kv.2;
    Ok (mkTopic (Name t) (Partitions t) v (Configs t))
  | Some 3%nat =>
    v ←r decode_Configs (Configs t) kv.2;
    Ok (mkTopic (Name t) (Partitions t) (ReplicationFactor t) v)
  | _ => Ok t
  end.

(** Into a [Topic]: [null] leaves it, an object sets the fields it names. *)
Definition decode_Topic `{Unicode} (cur : Topic) (j : json.jvalue) : result Topic :=
  match j with
  | json.JNull => Ok cur
  | json.JObject ms => foldl_result decode_Topic_member cur ms
  | _ => Err (UnmarshalTypeError (kind_of j))
  end.

Definition zero_Topic : Topic := mkTopic "" 0 0 None.

(** Into a [[]Topic]: element [i] is decoded into the element the slice
    has at [i], or into a zero [Topic] past its length. *)
Fixpoint decode_elems `{Unicode} (cur : list Topic) (js : list json.jvalue)
    : result (list Topic) :=
  match js with
  | [] => Ok []
  | j :: js =>
    t ←r decode_Topic (hd zero_Topic cur) j;
    ts ←r decode_elems (tl cur) js;
    Ok (t :: ts)
  end.

Definition decode_Topics `{Unicode} (cur : slice Topic) (j : json.jvalue)
    : result (slice Topic) :=
  match j with
  | json.JNull => Ok None
  | json.JArray js => ts ←r decode_elems (slice_elems cur) js; Ok (Some ts)
  | _ => Err (UnmarshalTypeError (kind_of j))
  end.

Definition ExportFile_fields : list string := ["kafka_version"; "export_time"; "topics"].

Definition decode_ExportFile_member `{Unicode} (f : ExportFile) (kv : string * json.jvalue)
    : result ExportFile :=
  match find_field ExportFile_fields kv.1 with
  | Some 0%nat =>
    v ←r decode_string (KafkaVersion f) kv.2; Ok (mkExportFile v (ExportTime f) (Topics f))
  | Some 1%nat =>
    v ←r decode_string (ExportTime f) kv.2; Ok (mkExportFile (KafkaVersion f) v (Topics f))
  | Some 2%nat =>
    v ←r decode_Topics (Topics f) kv.2; Ok (mkExportFile (KafkaVersion f) (ExportTime f) v)
  | _ => Ok f
  end.

Definition decode_ExportFile `{Unicode} (cur : ExportFile) (j : json.jvalue)
    : result ExportFile :=
  match j with
  | json.JNull => Ok cur
  | json.JObject ms => foldl_result decode_ExportFile_member cur ms
  | _ => Err (UnmarshalTypeError (kind_of j))
  end.

(** [json.Unmarshal(data, &file)] *)
Definition Unmarshal `{Unicode} (data : string) (file : ExportFile) : result ExportFile :=
  match json.scan data with
  | None => Err SyntaxError
  | Some j => decode_ExportFile file j
  end.

(** ** The world the program runs in *)

(** A cluster as the administrative API shows it: the topics it has, the
    creation requests it refuses for a reason of its own (authorization,
    quota, arguments), and whether it answers a listing. *)
Record Cluster := mkCluster {
  cl_topics : gmap string TopicDetail;
  cl_refuse : string → TopicDetail → option error;
  cl_list_error : option error
}.

(** The requests a [sarama.ClusterAdmin] sends. *)
Inductive AdminCall :=
| CallOpen
| CallListTopics
| CallCreateTopic (name : string) (detail : TopicDetail) (validateOnly : bool)
| CallClose.

Record World := mkWorld {
  w_net : gmap string Cluster;        (* the cluster behind each bootstrap address *)
  w_files : gmap string string;       (* the files, by path *)
  w_denied : gset string;             (* the paths the process may not open *)
  w_now : string;                     (* time.Now().Format(time.RFC3339) *)
  w_stdout : list string;
  w_stderr : list string;
  w_calls : list (string * AdminCall) (* the requests sent so far, oldest first *)
}.

Definition M (A : Type) : Type := World → A * World.

Definition ret {A} (a : A) : M A := λ w, (a, w).
Definition bind {A B} (m : M A) (f : A → M B) : M B := λ w, let '(a, w) := m w in f a w.

Notation "'let*' x ':=' e1 'in' e2" := (bind e1 (λ x, e2))
  (at level 10, x name, e1 at level 100, e2 at level 200, only parsing).
Notation "e1 >>> e2" := (bind e1 (λ _, e2))
  (at level 62, right associativity, only parsing).

Definition log_call (broker : string) (c : AdminCall) : M unit :=
  λ w, (tt, mkWorld (w_net w) (w_files w) (w_denied w) (w_now w) (w_stdout w) (w_stderr w)
                    (w_calls w ++ [(broker, c)])).

Definition set_cluster (broker : string) (c : Cluster) : M unit :=
  λ w, (tt, mkWorld (<[broker := c]> (w_net w)) (w_files w) (w_denied w) (w_now w)
                    (w_stdout w) (w_stderr w) (w_calls w)).

(** [fmt.Println], [fmt.Printf]: one more piece of text on standard output. *)
Definition Print (text : string) : M unit :=
  λ w, (tt, mkWorld (w_net w) (w_files w) (w_denied w) (w_now w) (w_stdout w ++ [text])
                    (w_stderr w) (w_calls w)).

Definition PrintErr (text : string) : M unit :=
  λ w, (tt, mkWorld (w_net w) (w_files w) (w_denied w) (w_now w) (w_stdout w)
                    (w_stderr w ++ [text]) (w_calls w)).

(** [os.ReadFile], [os.WriteFile] *)
Definition ReadFile (path : string) : M (result string) :=
  λ w, if decide (path ∈ w_denied w) then (Err (PathError "open" path), w)
       else match w_files w !! path with
            | Some data => (Ok data, w)
            | None => (Err (PathError "open" path), w)
            end.

Definition WriteFile (path : string) (data : string) : M (option error) :=
  λ w, if decide (path ∈ w_denied w) then (Some (PathError "open" path), w)
       else (None, mkWorld (w_net w) (<[path := data]> (w_files w)) (w_denied w) (w_now w)
                           (w_stdout w) (w_stderr w) (w_calls w)).

(** ** The administrative session (lines 29-35 and [sarama.ClusterAdmin]) *)

(** A session is known by the address it was opened on. *)
Definition newAdmin (broker : string) : M (result string) :=
  λ w, match w_net w !! broker with
       | Some _ => log_call broker CallOpen >>> ret (Ok broker)
       | None => ret (Err (ErrConnect broker))
       end w.

Definition ListTopics (admin : string) : M (result (gmap string TopicDetail)) :=
  log_call admin CallListTopics >>>
  λ w, match w_net w !! admin with
       | Some c => match cl_list_error c with
                   | Some e => (Err e, w)
                   | None => (Ok (cl_topics c), w)
                   end
       | None => (Err (ErrConnect admin), w)
       end.

(** The cluster's answer to a creation request, and the cluster after it. *)
Definition cluster_create (c : Cluster) (name : string) (detail : TopicDetail)
    (validateOnly : bool) : option error * Cluster :=
  match cl_topics c !! name with
  | Some _ => (Some ErrTopicAlreadyExists, c)
  | None =>
    match cl_refuse c name detail with
    | Some e => (Some e, c)
    | None =>
      if validateOnly then (None, c)
      else (None, mkCluster (<[name := detail]> (cl_topics c)) (cl_refuse c) (cl_list_error c))
    end
  end.

Definition CreateTopic (admin : string) (name : string) (detail : TopicDetail)
    (validateOnly : bool) : M (option error) :=
  log_call admin (CallCreateTopic name detail validateOnly) >>>
  λ w, match w_net w !! admin with
       | Some c =>
         let '(err, c') := cluster_create c name detail validateOnly in
         (set_cluster admin c' >>> ret err) w
       | None => (Some (ErrConnect admin), w)
       end.

Definition Close (admin : string) : M unit := log_call admin CallClose.

(** [defer admin.Close()]: the session is closed on every way out. *)
Definition with_admin (broker : string) (body : string → M (option error))
    : M (option error) :=
  let* r := newAdmin broker in
  match r with
  | Err e => ret (Some e)
  | Ok admin => let* err := body admin in Close admin >>> ret err
  end.

(** ** exportTopics (lines 38-86) *)

(** Lines 50-84: the bytes of one export. The error of
    [json.MarshalIndent] is dropped; with it the bytes would be none. *)
Definition export_data `{Sorter} (ord : RangeOrder) (excludeInternal : bool)
    (now : string) (topics : gmap string TopicDetail) : string :=
  let file := export_file ord excludeInternal now topics in
  let site := snd (export_loop ord excludeInternal topics) in
  match json.MarshalIndent (reflect_ExportFile ord site file) with
  | Ok data => data
  | Err _ => ""
  end.

Definition exportTopics `{Sorter} (ord : RangeOrder) (broker out : string)
    (excludeInternal : bool) : M (option error) :=
  with_admin broker (λ admin,
    let* r := ListTopics admin in
    match r with
    | Err e => ret (Some e)
    | Ok topics =>
      let* stamp := (λ w, (w_now w, w)) in
      WriteFile out (export_data ord excludeInternal stamp topics)
    end).

(** ** importTopics (lines 89-133) *)

(** Lines 108-112: [map[string]string] to [map[string]*string]. *)
Definition import_configs (entries : list (string * string)) : gmap string (option string) :=
  foldl (λ cfg kv, <[kv.1 := Some kv.2]> cfg) ∅ entries.

Definition skip_notice (name : string) : string :=
  "⚠️  跳过已存在 topic: " +:+ name +:+ String c_newline "".

Definition created_notice (name : string) : string :=
  "✅ 创建 topic: " +:+ name +:+ String c_newline "".

(** The loop of lines 106-130; [site] numbers the walk over [t.Configs]. *)
Fixpoint import_loop (ord : RangeOrder) (admin : string) (ifNotExists : bool)
    (site : nat) (topics : list Topic) : M (option error) :=
  match topics with
  | [] => ret None
  | t :: rest =>
    let cfg := import_configs (range_of ord site (gomap_entries (Configs t))) in
    let detail := {| NumPartitions := Partitions t;
                     TD_ReplicationFactor := ReplicationFactor t;
                     ConfigEntries := cfg |} in
    let* err := CreateTopic admin (Name t) detail false in
    match err with
    | Some e =>
      if ifNotExists then
        Print (skip_notice (Name t)) >>> import_loop ord admin ifNotExists (S site) rest
      else ret (Some e)
    | None =>
      Print (created_notice (Name t)) >>> import_loop ord admin ifNotExists (S site) rest
    end
  end.

Definition zero_ExportFile : ExportFile := mkExportFile "" "" None.

Definition importTopics `{Unicode} (ord : RangeOrder) (broker in_ : string)
    (ifNotExists : bool) : M (option error) :=
  with_admin broker (λ admin,
    let* r := ReadFile in_ in
    match r with
    | Err e => ret (Some e)
    | Ok data =>
      match Unmarshal data zero_ExportFile with
      | Err e => ret (Some e)
      | Ok file => import_loop ord admin ifNotExists 0 (slice_elems (Topics file))
      end
    end).

(** ** main (lines 136-186) *)

(** What [fs.Parse] makes of the arguments of a command whose flag set is
    [ExitOnError]: the three flag values, or the exit status it ends the
    process with. The parsing itself is the [flag] package's. *)
Inductive Parsed :=
| Flags (bootstrap path : string) (switch : bool)
| ParseExit (status : Z).

Class FlagPackage := {
  (* the flag set's name, the name and default of its path flag, the name
     of its boolean flag (default true), the arguments *)
  fs_Parse : string → string → string → string → list string → Parsed;
  fs_Usage : string → string
}.

(** How the process ends: the status it exits with; a panic exits with 2. *)
Definition usage_lines : list string :=
  ["用法: kafka-topicctl <export|import> [参数]";
   "示例:";
   "  kafka-topicctl export --bootstrap broker:9092";
   "  kafka-topicctl import --bootstrap broker:9092 --in topics.json"].

Definition print_all (lines : list string) : M unit :=
  foldr (λ l k, Print l >>> k) (ret tt) lines.

Definition main `{Sorter} `{Unicode} `{FlagPackage} (ord : RangeOrder)
    (Args : list string) : M Z :=
  match Args with
  | [] | [_] => print_all usage_lines >>> ret 1
  | _ :: cmd :: rest =>
    if String.eqb cmd "export" then
      match fs_Parse "export" "out" "topics.json" "exclude-internal" rest with
      | ParseExit status => ret status
      | Flags broker out exclude =>
        if String.eqb broker "" then PrintErr (fs_Usage "export") >>> ret 1
        else
          let* err := exportTopics ord broker out exclude in
          match err with
          | Some _ => ret 2
          | None => Print ("🎉 导出完成: " +:+ out) >>> ret 0
          end
      end
    else if String.eqb cmd "import" then
      match fs_Parse "import" "in" "topics.json" "if-not-exists" rest with
      | ParseExit status => ret status
      | Flags broker in_ ifNotExists =>
        if String.eqb broker "" then PrintErr (fs_Usage "import") >>> ret 1
        else
          let* err := importTopics ord broker in_ ifNotExists in
          match err with
          | Some _ => ret 2
          | None => Print "🎉 导入完成" >>> ret 0
          end
      end
    else
      Print "支持命令: export / import" >>> ret 0
  end.

(** * Vocabulary of the statements *)

(** What the loop makes of one listed topic. *)
Definition topic_of (kv : string * TopicDetail) : Topic :=
  {| Name := kv.1;
     Partitions := NumPartitions kv.2;
     ReplicationFactor := TD_ReplicationFactor kv.2;
     Configs := Some (default "" <$> ConfigEntries kv.2) |}.

(** The listed topics the filter of line 57 lets through. *)
Definition kept (excludeInternal : bool) (kv : string * TopicDetail) : Prop :=
  excludeInternal && is_internal kv.1 = false.

(** The creation request the loop sends for a topic of the document. *)
Definition detail_of (t : Topic) : TopicDetail :=
  {| NumPartitions := Partitions t;
     TD_ReplicationFactor := ReplicationFactor t;
     ConfigEntries := Some <$> gomap_entries (Configs t) |}.

(** The record of that request. *)
Definition create_call (admin : string) (t : Topic) : string * AdminCall :=
  (admin, CallCreateTopic (Name t) (detail_of t) false).

(** The cluster after every topic of [ts] was created in turn, if each
    creation succeeded. *)
Fixpoint create_all (c : Cluster) (ts : list Topic) : option Cluster :=
  match ts with
  | [] => Some c
  | t :: ts =>
    match cluster_create c (Name t) (detail_of t) false with
    | (None, c') => create_all c' ts
    | (Some _, _) => None
    end
  end.

(** Lines 96-104: the document read from a path. *)
Definition read_snapshot `{Unicode} (w : World) (path : string) : result ExportFile :=
  match fst (ReadFile path w) with
  | Err e => Err e
  | Ok data => Unmarshal data zero_ExportFile
  end.

(** The world after more requests and more output. *)
Definition world_after (w : World) (net : gmap string Cluster) (out : list string)
    (calls : list (string * AdminCall)) : World :=
  mkWorld net (w_files w) (w_denied w) (w_now w) (w_stdout w ++ out) (w_stderr w)
          (w_calls w ++ calls).

(** The rune spelled by a sequence of two, three or four bytes. *)
Definition rune2 (s0 s1 : Z) : Z := Z.lor (Z.shiftl (Z.land s0 0x1F) 6) (Z.land s1 0x3F).

Definition rune3 (s0 s1 s2 : Z) : Z :=
  Z.lor (Z.lor (Z.shiftl (Z.land s0 0x0F) 12) (Z.shiftl (Z.land s1 0x3F) 6)) (Z.land s2 0x3F).

Definition rune4 (s0 s1 s2 s3 : Z) : Z :=
  Z.lor (Z.lor (Z.lor (Z.shiftl (Z.land s0 0x07) 18) (Z.shiftl (Z.land s1 0x3F) 12))
               (Z.shiftl (Z.land s2 0x3F) 6))
        (Z.land s3 0x3F).

(** What [appendString] writes for one ASCII byte. *)
Definition ascii_chunk (b : ascii) : list ascii :=
  if json.htmlSafe (b2z b) then [b] else json.escape_ascii b.

(** The escape written for U+2028 and U+2029. *)
Definition line_sep_chunk (c : Z) : list ascii :=
  c_backslash :: bytes_of "u202" ++ [json.hex (Z.land c 0xF)].

(** The decimal digit [k] and the number a row of digits spells. *)
Definition digit (k : Z) : ascii := z2b (48 + k).

Definition digits_value (ds : list ascii) : Z :=
  foldl (λ acc c, acc * 10 + (b2z c - 48)) 0 ds.

(** What may follow a number in a text. *)
Definition ends_number (rest : list ascii) : Prop :=
  match rest with
  | [] => True
  | c :: _ =>
    json.is_digit c = false ∧ ascii_eqb c "."%char = false ∧
    ascii_eqb c "e"%char = false ∧ ascii_eqb c "E"%char = false
  end.

(** A struct field that [omitempty] leaves out. *)
Definition omitted (f : string * bool * json.GoValue) : bool := f.1.2 && json.isEmptyValue f.2.

(** [denotes v j]: the JSON value [j] is what the text of [v] means. The
    members of a map may stand in any order. *)
Inductive denotes : json.GoValue → json.jvalue → Prop :=
| den_string s : denotes (json.GoString s) (json.JString s)
| den_int n : denotes (json.GoInt n) (json.JNumber (json.AppendInt n))
| den_bool b : denotes (json.GoBool b) (json.JBool b)
| den_slice_nil : denotes (json.GoSlice None) json.JNull
| den_slice xs js :
    Forall2 denotes xs js → denotes (json.GoSlice (Some xs)) (json.JArray js)
| den_map_nil : denotes (json.GoMap None) json.JNull
| den_map kvs kvs' ms :
    kvs' ≡ₚ kvs →
    Forall2 (λ kv m, m.1 = kv.1 ∧ denotes kv.2 m.2) kvs' ms →
    denotes (json.GoMap (Some kvs)) (json.JObject ms)
| den_struct fs ms :
    Forall2 (λ f m, m.1 = f.1.1 ∧ denotes f.2 m.2) (List.filter (λ f, negb (omitted f)) fs) ms →
    denotes (json.GoStruct fs) (json.JObject ms).

(** Every string of the value, key or field name is valid UTF-8. *)
Fixpoint valid_strings (v : json.GoValue) : bool :=
  match v with
  | json.GoString s => utf8.ValidString s
  | json.GoSlice (Some xs) => forallb valid_strings xs
  | json.GoMap (Some kvs) =>
    forallb (λ kv : string * json.GoValue, utf8.ValidString kv.1 && valid_strings kv.2) kvs
  | json.GoStruct fs =>
    forallb (λ f : string * bool * json.GoValue, utf8.ValidString f.1.1 && valid_strings f.2) fs
  | _ => true
  end.

(** How deep arrays and objects nest in the text of a value. *)
Fixpoint height (v : json.GoValue) : nat :=
  match v with
  | json.GoSlice (Some xs) => S (list_max (map height xs))
  | json.GoMap (Some kvs) => S (list_max (map (λ kv : string * json.GoValue, height kv.2) kvs))
  | json.GoStruct fs => S (list_max (map (λ f : string * bool * json.GoValue, height f.2) fs))
  | _ => O
  end.

(** What follows a value inside a written text: nothing, a comma or a
    line break. *)
Definition ends_value (rest : list ascii) : Prop :=
  match rest with
  | [] => True
  | c :: _ => c = ","%char ∨ c = c_newline
  end.

(** The first character of a value's text. *)
Definition value_head (c : ascii) : Prop :=
  c = c_quote ∨ c = "-"%char ∨ json.is_digit c = true ∨ c = "t"%char ∨ c = "f"%char ∨
  c = "n"%char ∨ c = "["%char ∨ c = "{"%char.

(** The text between the first item and the closing bracket. *)
Definition more_lines (d : nat) (items : list (list ascii)) : list ascii :=
  concat (map (λ it, ","%char :: json.newline (S d) ++ it) items).

(** [scan_ok v]: the scanner reads back any text of [v]. *)
Definition scan_ok `{Sorter} (v : json.GoValue) : Prop :=
  ∀ d text depth fuel rest,
    json.encode d v = Ok text →
    valid_strings v = true →
    (depth + height v <= json.maxNestingDepth)%nat →
    (2 * length text <= fuel)%nat →
    ends_value rest →
    ∃ j, json.scan_value fuel depth (text ++ rest) = Some (j, rest) ∧ denotes v j.

(** What the proof needs of a value inside an array or an object. *)
Definition elem_ok `{Sorter} (depth : nat) (v : json.GoValue) : Prop :=
  scan_ok v ∧ valid_strings v = true ∧ (depth + height v <= json.maxNestingDepth)%nat.

(** An item of an object's text: the member for [kv]. *)
Definition member_item `{Sorter} (d : nat) (kv : string * json.GoValue) (it : list ascii) : Prop :=
  ∃ text, json.encode (S d) kv.2 = Ok text ∧ it = json.member kv.1 text.

(** What the proof needs of a member of an object. *)
Definition member_ok `{Sorter} (depth : nat) (kv : string * json.GoValue) : Prop :=
  utf8.ValidString kv.1 = true ∧ elem_ok depth kv.2.

(** The members an object's text is made of. *)
Definition members_of `{Sorter} (d : nat) (kvl : list (string * json.GoValue))
    : list (string * result (list ascii)) :=
  map (λ kv : string * json.GoValue, (kv.1, json.encode (S d) kv.2)) kvl.

(** No channel and no function anywhere in the value. *)
Fixpoint encodable (v : json.GoValue) : bool :=
  match v with
  | json.GoChan | json.GoFunc => false
  | json.GoSlice (Some xs) => forallb encodable xs
  | json.GoMap (Some kvs) => forallb (λ kv : string * json.GoValue, encodable kv.2) kvs
  | json.GoStruct fs => forallb (λ f : string * bool * json.GoValue, encodable f.2) fs
  | _ => true
  end.

(** Documents the codec can carry: every string is valid UTF-8 and every
    number is of its field's width. *)
Definition in_int (bits : Z) (n : Z) : bool :=
  (- 2 ^ (bits - 1) <=? n) && (n <? 2 ^ (bits - 1)).

(** Keys and values of a configs map are valid UTF-8. *)
Definition valid_entries (m : gmap string string) : bool :=
  forallb (λ kv : string * string, utf8.ValidString kv.1 && utf8.ValidString kv.2)
          (map_to_list m).

Definition wf_Topic (t : Topic) : bool :=
  utf8.ValidString (Name t) && in_int 32 (Partitions t) && in_int 16 (ReplicationFactor t)
  && valid_entries (gomap_entries (Configs t)).

Definition wf_ExportFile (f : ExportFile) : bool :=
  utf8.ValidString (KafkaVersion f) && utf8.ValidString (ExportTime f)
  && forallb wf_Topic (slice_elems (Topics f)).

(** What comes back for a topic: the same topic, its configs map nil when
    it had no entry. *)
Definition read_back_Topic (t : Topic) : Topic :=
  {| Name := Name t;
     Partitions := Partitions t;
     ReplicationFactor := ReplicationFactor t;
     Configs := if decide (gomap_entries (Configs t) = ∅) then None
                else Some (gomap_entries (Configs t)) |}.

(** What comes back for a document. *)
Definition read_back (f : ExportFile) : ExportFile :=
  {| KafkaVersion := KafkaVersion f;
     ExportTime := ExportTime f;
     Topics := map read_back_Topic <$> Topics f |}.

(** The entries of a [map[string]string] as the encoder meets them. *)
Definition string_entries (l : list (string * string)) : list (string * json.GoValue) :=
  map (λ kv : string * string, (kv.1, json.GoString kv.2)) l.

(** The text of the [topics] member of a document. *)
Definition topics_text `{Sorter} (ord : RangeOrder) (site : nat) (f : ExportFile) : result (list ascii) :=
  json.encode 1 (json.GoSlice (imap (λ i t, reflect_Topic ord (site + i) t) <$> Topics f)).

(** * Proofs *)

(** ** Byte order on strings *)

Lemma string_lt_leb a b : string_lt a b = negb (String.leb b a).
Proof.
  unfold string_lt, String.ltb, String.leb.
  rewrite (String.compare_antisym a b). by destruct (String.compare b a).
Qed.

Lemma string_lt_irrefl a : string_lt a a = false.
Proof.
  rewrite string_lt_leb. apply negb_false_iff, Is_true_true.
  by apply (reflexivity (R := String.le)).
Qed.

Lemma string_le_trans a b c :
  String.leb a b = true → String.leb b c = true → String.leb a c = true.
Proof.
  intros H1%Is_true_true H2%Is_true_true. apply Is_true_true.
  by apply (transitivity (R := String.le) (y := b)).
Qed.

Lemma string_lt_trans a b c :
  string_lt a b = true → string_lt b c = true → string_lt a c = true.
Proof.
  rewrite !string_lt_leb, !negb_true_iff. intros Hba Hcb.
  destruct (String.leb c a) eqn:Hca; [|done].
  destruct (String.leb_total a b) as [Hab|Hab]; [|congruence].
  rewrite <- Hcb. symmetry. by apply (string_le_trans c a b).
Qed.

Lemma string_lt_incomp a b c :
  string_lt a b = false → string_lt b c = false → string_lt a c = false.
Proof.
  rewrite !string_lt_leb, !negb_false_iff. intros Hba Hcb. by apply (string_le_trans c b a).
Qed.

(** Two strings neither of which is below the other are the same string. *)
Lemma string_lt_total a b : string_lt a b = false → string_lt b a = false → a = b.
Proof.
  rewrite !string_lt_leb, !negb_false_iff. intros Hba Hab. by apply String.leb_antisym.
Qed.

Lemma topic_less_StrictWeak : StrictWeak topic_less.
Proof.
  split; unfold topic_less.
  - intros a. apply string_lt_irrefl.
  - intros a b c. apply string_lt_trans.
  - intros a b c. apply string_lt_incomp.
Qed.

Lemma key_less_StrictWeak {V} : StrictWeak (@json.key_less V).
Proof.
  split; unfold json.key_less.
  - intros a. apply string_lt_irrefl.
  - intros a b c. apply string_lt_trans.
  - intros a b c. apply string_lt_incomp.
Qed.

(** ** Sorting elements with distinct keys *)

Section sorted_by_key.
Context {A : Type} (key : A → string).

Let less (a b : A) : bool := string_lt (key a) (key b).

(** A list without repeated keys has one arrangement in key order. *)
Lemma sorted_by_key_unique (l1 l2 : list A) :
  NoDup (key <$> l1) →
  StronglySorted (λ a b, less b a = false) l1 →
  StronglySorted (λ a b, less b a = false) l2 →
  l1 ≡ₚ l2 → l1 = l2.
Proof.
  intros Hnd H1 H2 Hp.
  apply (StronglySorted_unique_strong (λ a b, less b a = false)); [|done..].
  intros x1 x2 Hx1 Hx2 Hle1 Hle2. rewrite <- Hp in Hx2.
  assert (key x1 = key x2) as Hk by (by apply string_lt_total).
  apply list_elem_of_lookup in Hx1 as [i Hi], Hx2 as [j Hj].
  assert (i = j) as ->; [|congruence].
  eapply NoDup_lookup; [exact Hnd| |]; rewrite list_lookup_fmap.
  - by rewrite Hi.
  - rewrite Hj. simpl. by rewrite Hk.
Qed.

(** In key order and without repeated keys is in strictly rising key
    order. *)
Lemma sorted_by_key_strict (l : list A) :
  NoDup (key <$> l) →
  StronglySorted (λ a b, less b a = false) l →
  StronglySorted (λ a b, less a b = true) l.
Proof.
  intros Hnd. induction 1 as [|x l Hl IH Hx]; [constructor|].
  rewrite fmap_cons in Hnd. apply NoDup_cons in Hnd as [Hx' Hnd].
  constructor; [by apply IH|].
  apply Forall_forall. intros y Hy. rewrite Forall_forall in Hx.
  destruct (less x y) eqn:E; [done|]. exfalso. apply Hx'.
  rewrite (string_lt_total (key x) (key y)); [|done|by apply Hx].
  by apply list_elem_of_fmap_2.
Qed.

End sorted_by_key.

(** ** The export loop *)

Global Instance kept_dec excl kv : Decision (kept excl kv).
Proof. unfold kept. apply _. Defined.

Lemma copy_configs_fold (l : list (string * option string)) (acc : gmap string string) :
  NoDup l.*1 →
  foldl (λ configs kv,
           match kv.2 with
           | Some v => <[kv.1 := v]> configs
           | None => <[kv.1 := ""]> configs
           end) acc l
  = (default "" <$> (list_to_map l : gmap string (option string))) ∪ acc.
Proof.
  revert acc. induction l as [|[k v] l IH]; intros acc Hnd; simpl.
  { by rewrite fmap_empty, (left_id_L ∅ (∪)). }
  apply NoDup_cons in Hnd as [Hk Hnd]. rewrite IH by done.
  rewrite fmap_insert, <- insert_union_l.
  assert ((default "" <$> (list_to_map l : gmap string (option string))) !! k = None) as Hnone.
  { rewrite lookup_fmap. by rewrite (not_elem_of_list_to_map_1 l k). }
  destruct v; simpl; by rewrite <- insert_union_r.
Qed.

(** The inner loop does not depend on the order of its walk. *)
Lemma copy_configs_range (ord : RangeOrder) (site : nat) (m : gmap string (option string)) :
  copy_configs (range_of ord site m) = default "" <$> m.
Proof.
  unfold copy_configs.
  assert (NoDup (range_of ord site m).*1) as Hnd.
  { rewrite (range_of_perm ord). apply NoDup_fst_map_to_list. }
  rewrite copy_configs_fold by done. rewrite (right_id_L ∅ (∪)). f_equal.
  rewrite <- (list_to_map_to_list m) at 2.
  apply list_to_map_proper; [done|]. apply range_of_perm.
Qed.

Lemma foldl_step {A B} (f : A → B → A) (a : A) (x : B) (l : list B) :
  foldl f a (x :: l) = foldl f (f a x) l.
Proof. done. Qed.

Lemma export_step_spec ord excl result site kv :
  export_step ord excl (result, site) kv =
  if decide (kept excl kv) then (append result (topic_of kv), S site) else (result, site).
Proof.
  destruct kv as [name detail]. unfold export_step.
  case_decide as Hk; unfold kept in Hk; simpl in Hk; rewrite ?Hk.
  - by rewrite copy_configs_range.
  - by destruct (excl && is_internal name).
Qed.

Lemma export_fold_elems ord excl l acc site :
  slice_elems (foldl (export_step ord excl) (acc, site) l).1
  = slice_elems acc ++ (topic_of <$> filter (kept excl) l).
Proof.
  revert acc site. induction l as [|kv l IH]; intros acc site.
  { simpl. by rewrite app_nil_r. }
  rewrite foldl_step, export_step_spec, filter_cons. case_decide.
  - rewrite IH. unfold append at 1. simpl. by rewrite <- app_assoc.
  - by rewrite IH.
Qed.

Lemma export_fold_nil ord excl l acc site :
  (foldl (export_step ord excl) (acc, site) l).1 = None ↔
  acc = None ∧ filter (kept excl) l = [].
Proof.
  revert acc site. induction l as [|kv l IH]; intros acc site.
  { simpl. split; [by intros ->|by intros [-> _]]. }
  rewrite foldl_step, export_step_spec, filter_cons. case_decide.
  - rewrite IH. unfold append. split; [intros [? _]; discriminate|intros [_ ?]; discriminate].
  - by rewrite IH.
Qed.

(** The topics the loop collects, in the order of its walk. *)
Lemma export_collect_elems ord excl (topics : gmap string TopicDetail) :
  slice_elems (export_collect ord excl topics)
  = topic_of <$> filter (kept excl) (range_of ord 0 topics).
Proof. unfold export_collect, export_loop. by rewrite export_fold_elems. Qed.

Lemma Name_topic_of l : Name <$> (topic_of <$> l) = l.*1.
Proof. rewrite <- list_fmap_compose. by apply list_fmap_ext. Qed.

Lemma export_collect_NoDup ord excl (topics : gmap string TopicDetail) :
  NoDup (Name <$> slice_elems (export_collect ord excl topics)).
Proof.
  rewrite export_collect_elems, Name_topic_of.
  apply (NoDup_fmap_fst); [|].
  - intros k x y Hx%list_elem_of_filter Hy%list_elem_of_filter.
    destruct Hx as [_ Hx], Hy as [_ Hy].
    rewrite (range_of_perm ord) in Hx, Hy.
    apply elem_of_map_to_list in Hx, Hy. congruence.
  - apply NoDup_filter. rewrite (range_of_perm ord). apply NoDup_map_to_list.
Qed.

(** Two walks collect the same topics. *)
Lemma export_collect_perm ord1 ord2 excl (topics : gmap string TopicDetail) :
  slice_elems (export_collect ord1 excl topics)
  ≡ₚ slice_elems (export_collect ord2 excl topics).
Proof.
  rewrite !export_collect_elems. apply fmap_Permutation.
  apply filter_Permutation. by rewrite !(range_of_perm _).
Qed.

Lemma export_collect_nil ord excl (topics : gmap string TopicDetail) :
  export_collect ord excl topics = None ↔ slice_elems (export_collect ord excl topics) = [].
Proof.
  rewrite export_collect_elems. unfold export_collect, export_loop.
  rewrite export_fold_nil. split.
  - intros [_ ->]. done.
  - intros E%fmap_nil_inv. done.
Qed.

Lemma slice_elems_sort `{Sorter} {A} (less : A → A → bool) (s : slice A) :
  slice_elems (sort_Slice less s) = sort_by less (slice_elems s) ∨
  (s = None ∧ slice_elems (sort_Slice less s) = []).
Proof. destruct s; simpl; auto. Qed.

Lemma sort_Slice_perm `{Sorter} {A} (less : A → A → bool) (s : slice A) :
  slice_elems (sort_Slice less s) ≡ₚ slice_elems s.
Proof. destruct s; simpl; [apply sort_by_perm|done]. Qed.

Lemma sort_Slice_sorted `{Sorter} {A} (less : A → A → bool) (s : slice A) :
  StrictWeak less →
  StronglySorted (λ a b, less b a = false) (slice_elems (sort_Slice less s)).
Proof. intros SW. destruct s; simpl; [by apply sort_by_sorted|constructor]. Qed.

Lemma export_topics_perm `{Sorter} ord excl now (topics : gmap string TopicDetail) :
  slice_elems (Topics (export_file ord excl now topics))
  ≡ₚ topic_of <$> filter (kept excl) (map_to_list topics).
Proof.
  simpl. unfold export_topics_sorted. rewrite sort_Slice_perm, export_collect_elems.
  apply fmap_Permutation, filter_Permutation, range_of_perm.
Qed.

Lemma prefix_cons (a b : ascii) (s1 s2 : string) :
  String.prefix (String a s1) (String b s2)
  = if Ascii.eqb a b then String.prefix s1 s2 else false.
Proof.
  change (String.prefix (String a s1) (String b s2))
    with (match ascii_dec a b with left _ => String.prefix s1 s2 | right _ => false end).
  destruct (ascii_dec a b) as [->|Hne].
  - by rewrite Ascii.eqb_refl.
  - apply Ascii.eqb_neq in Hne. by rewrite Hne.
Qed.

Lemma is_internal_prefix name : is_internal name = String.prefix "__" name.
Proof.
  unfold is_internal.
  destruct name as [|a [|b name]]; [done| |].
  - rewrite prefix_cons. by destruct (Ascii.eqb "_" a).
  - rewrite !prefix_cons. cbn -[Ascii.eqb String.prefix].
    rewrite (Ascii.eqb_sym a), (Ascii.eqb_sym b).
    destruct (Ascii.eqb "_" a), (Ascii.eqb "_" b); try done. by destruct name.
Qed.

(** ** Claims about export *)

(** C3. The topics of an exported document stand in strictly rising byte
    order of their names: every topic's name is below the name of every
    topic after it. *)
Theorem export_topics_strictly_sorted `{Sorter} (ord : RangeOrder) (excludeInternal : bool)
    (now : string) (topics : gmap string TopicDetail) :
  StronglySorted (λ a b, string_lt (Name a) (Name b) = true)
    (slice_elems (Topics (export_file ord excludeInternal now topics))).
Proof.
  simpl. unfold export_topics_sorted.
  apply (sorted_by_key_strict Name).
  - rewrite sort_Slice_perm. apply export_collect_NoDup.
  - apply (sort_Slice_sorted topic_less), topic_less_StrictWeak.
Qed.

(** C4. A topic of the exported document has every config key the
    cluster reported for it: with the reported value where there is one,
    with the empty string where the reported value is absent. *)
Theorem export_normalizes_configs `{Sorter} (ord : RangeOrder) (excludeInternal : bool)
    (now : string) (topics : gmap string TopicDetail) (t : Topic) :
  t ∈ slice_elems (Topics (export_file ord excludeInternal now topics)) →
  ∃ detail cfg,
    topics !! Name t = Some detail ∧ Configs t = Some cfg ∧
    ∀ k, cfg !! k = match ConfigEntries detail !! k with
                    | Some (Some v) => Some v
                    | Some None => Some ""
                    | None => None
                    end.
Proof.
  rewrite export_topics_perm. intros ([name detail] & -> & Hin)%list_elem_of_fmap.
  apply list_elem_of_filter in Hin as [_ Hin]. apply elem_of_map_to_list in Hin.
  exists detail, (default "" <$> ConfigEntries detail). split_and!; [done..|].
  intros k. rewrite lookup_fmap. simpl. by destruct (ConfigEntries detail !! k) as [[]|].
Qed.

(** C5. A listed topic is in the exported document unless internal
    topics are excluded and its name starts with two underscores. *)
Theorem export_filters_internal `{Sorter} (ord : RangeOrder) (excludeInternal : bool)
    (now : string) (topics : gmap string TopicDetail) (name : string) :
  name ∈ Name <$> slice_elems (Topics (export_file ord excludeInternal now topics)) ↔
  is_Some (topics !! name) ∧ ¬ (excludeInternal = true ∧ String.prefix "__" name = true).
Proof.
  rewrite export_topics_perm, Name_topic_of. rewrite list_elem_of_fmap. split.
  - intros ([k detail] & -> & [Hk Hin]%list_elem_of_filter).
    apply elem_of_map_to_list in Hin. split; [by eexists|].
    unfold kept in Hk. simpl in *. rewrite is_internal_prefix in Hk.
    intros [-> E]. by rewrite E in Hk.
  - intros [[detail Hd] Hk]. exists (name, detail). split; [done|].
    apply list_elem_of_filter. split; [|by apply elem_of_map_to_list].
    unfold kept. simpl. rewrite is_internal_prefix.
    destruct excludeInternal, (String.prefix "__" name); simpl; try done.
    exfalso. by apply Hk.
Qed.

(** Two exports of one cluster state hold the same topics in the same
    order, whatever order the runtime walked the maps in. *)
Lemma export_topics_order_irrelevant `{Sorter} (ord1 ord2 : RangeOrder) (excl : bool)
    (now1 now2 : string) (topics : gmap string TopicDetail) :
  Topics (export_file ord1 excl now1 topics) = Topics (export_file ord2 excl now2 topics).
Proof.
  simpl. unfold export_topics_sorted.
  pose proof (export_collect_perm ord1 ord2 excl topics) as Hp.
  destruct (export_collect ord1 excl topics) as [l1|] eqn:E1,
           (export_collect ord2 excl topics) as [l2|] eqn:E2; simpl in *.
  - f_equal. apply (sorted_by_key_unique Name).
    + rewrite sort_by_perm. pose proof (export_collect_NoDup ord1 excl topics) as Hnd.
      by rewrite E1 in Hnd.
    + apply sort_by_sorted, topic_less_StrictWeak.
    + apply sort_by_sorted, topic_less_StrictWeak.
    + by rewrite !sort_by_perm.
  - apply Permutation_nil_r in Hp as ->.
    apply export_collect_nil in E2. rewrite export_collect_elems in E2.
    assert (slice_elems (export_collect ord1 excl topics) = []) as E.
    { apply Permutation_nil_r. rewrite (export_collect_perm ord1 ord2).
      by rewrite export_collect_elems, E2. }
    apply export_collect_nil in E. congruence.
  - apply Permutation_nil in Hp as ->.
    apply export_collect_nil in E1. rewrite export_collect_elems in E1.
    assert (slice_elems (export_collect ord2 excl topics) = []) as E.
    { apply Permutation_nil_r. rewrite (export_collect_perm ord2 ord1).
      by rewrite export_collect_elems, E1. }
    apply export_collect_nil in E. congruence.
  - done.
Qed.

(** ** The import loop *)

Lemma world_after_id w : world_after w (w_net w) [] [] = w.
Proof. destruct w. unfold world_after. simpl. by rewrite !app_nil_r. Qed.

Lemma world_after_after w net1 out1 calls1 net2 out2 calls2 :
  world_after (world_after w net1 out1 calls1) net2 out2 calls2
  = world_after w net2 (out1 ++ out2) (calls1 ++ calls2).
Proof. unfold world_after. simpl. by rewrite !app_assoc. Qed.

Lemma import_configs_fold (l : list (string * string)) (acc : gmap string (option string)) :
  NoDup l.*1 →
  foldl (λ cfg kv, <[kv.1 := Some kv.2]> cfg) acc l
  = (Some <$> (list_to_map l : gmap string string)) ∪ acc.
Proof.
  revert acc. induction l as [|[k v] l IH]; intros acc Hnd; simpl.
  { by rewrite fmap_empty, (left_id_L ∅ (∪)). }
  apply NoDup_cons in Hnd as [Hk Hnd]. rewrite IH by done.
  rewrite fmap_insert, <- insert_union_l. rewrite <- insert_union_r; [done|].
  rewrite lookup_fmap. by rewrite (not_elem_of_list_to_map_1 l k).
Qed.

Lemma import_configs_range (ord : RangeOrder) (site : nat) (m : gmap string string) :
  import_configs (range_of ord site m) = Some <$> m.
Proof.
  unfold import_configs.
  assert (NoDup (range_of ord site m).*1) as Hnd.
  { rewrite (range_of_perm ord). apply NoDup_fst_map_to_list. }
  rewrite import_configs_fold by done. rewrite (right_id_L ∅ (∪)). f_equal.
  rewrite <- (list_to_map_to_list m) at 2.
  apply list_to_map_proper; [done|]. apply range_of_perm.
Qed.

(** One creation request of a session whose cluster is [c]. *)
Lemma CreateTopic_spec admin name detail w net out calls c :
  net !! admin = Some c →
  CreateTopic admin name detail false (world_after w net out calls)
  = let '(err, c') := cluster_create c name detail false in
    (err, world_after w (<[admin := c']> net) out
                      (calls ++ [(admin, CallCreateTopic name detail false)])).
Proof.
  intros Hc. unfold CreateTopic, bind, log_call, set_cluster, ret, world_after. simpl.
  rewrite Hc. destruct (cluster_create c name detail false) as [err c']. simpl.
  by rewrite app_assoc.
Qed.

Lemma Print_spec text w net out calls :
  Print text (world_after w net out calls) = (tt, world_after w net (out ++ [text]) calls).
Proof. unfold Print, world_after. simpl. by rewrite app_assoc. Qed.

Lemma import_loop_step ord admin ifNotExists site t rest w net out calls c :
  net !! admin = Some c →
  import_loop ord admin ifNotExists site (t :: rest) (world_after w net out calls)
  = let '(err, c') := cluster_create c (Name t) (detail_of t) false in
    let calls' := calls ++ [create_call admin t] in
    let net' := <[admin := c']> net in
    match err with
    | Some e =>
      if ifNotExists
      then import_loop ord admin ifNotExists (S site) rest
             (world_after w net' (out ++ [skip_notice (Name t)]) calls')
      else (Some e, world_after w net' out calls')
    | None =>
      import_loop ord admin ifNotExists (S site) rest
        (world_after w net' (out ++ [created_notice (Name t)]) calls')
    end.
Proof.
  intros Hc. cbn [import_loop]. rewrite import_configs_range.
  unfold bind at 1. fold (detail_of t).
  rewrite (CreateTopic_spec _ _ _ _ _ _ _ c) by done.
  destruct (cluster_create c (Name t) (detail_of t) false) as [[e|] c']; simpl.
  - destruct ifNotExists; [|done]. unfold bind. by rewrite Print_spec.
  - unfold bind. by rewrite Print_spec.
Qed.

Lemma cluster_create_error c name detail e c' :
  cluster_create c name detail false = (Some e, c') → c' = c.
Proof.
  unfold cluster_create. destruct (cl_topics c !! name); [by intros [= _ <-]|].
  destruct (cl_refuse c name detail); by intros [= <-].
Qed.

(** With [ifNotExists] unset the loop creates the topics before the first
    refused one and returns the refusal. *)
Lemma import_loop_fail_fast ord admin site pre t post e w net out calls c c1 :
  net !! admin = Some c →
  create_all c pre = Some c1 →
  fst (cluster_create c1 (Name t) (detail_of t) false) = Some e →
  import_loop ord admin false site (pre ++ t :: post) (world_after w net out calls)
  = (Some e, world_after w (<[admin := c1]> net)
                         (out ++ (created_notice ∘ Name <$> pre))
                         (calls ++ (create_call admin <$> pre ++ [t]))).
Proof.
  revert site net out calls c. induction pre as [|p pre IH];
    intros site net out calls c Hc Hall Herr.
  - simpl in Hall. injection Hall as ->. simpl app.
    rewrite (import_loop_step _ _ _ _ _ _ _ _ _ _ c1) by done.
    destruct (cluster_create c1 (Name t) (detail_of t) false) as [[e'|] c'] eqn:E;
      simpl in Herr; [|done].
    injection Herr as ->. apply cluster_create_error in E as ->.
    by rewrite app_nil_r.
  - simpl in Hall. simpl app.
    rewrite (import_loop_step _ _ _ _ _ _ _ _ _ _ c) by done.
    destruct (cluster_create c (Name p) (detail_of p) false) as [[e'|] c'] eqn:E; [done|].
    rewrite (IH _ _ _ _ c'); [|by rewrite lookup_insert_eq|done..].
    rewrite insert_insert_eq. simpl. by rewrite <- !app_assoc.
Qed.

(** With [ifNotExists] set the loop never returns an error. *)
Lemma import_loop_lenient ord admin site ts w net out calls c :
  net !! admin = Some c →
  fst (import_loop ord admin true site ts (world_after w net out calls)) = None.
Proof.
  revert site net out calls c. induction ts as [|t ts IH]; intros site net out calls c Hc.
  { done. }
  rewrite (import_loop_step _ _ _ _ _ _ _ _ _ _ c) by done.
  destruct (cluster_create c (Name t) (detail_of t) false) as [[e'|] c'] eqn:E;
    eapply IH; by rewrite lookup_insert_eq.
Qed.

Lemma create_all_topics c ts c1 :
  create_all c ts = Some c1 →
  dom (cl_topics c1) = dom (cl_topics c) ∪ list_to_set (Name <$> ts).
Proof.
  revert c. induction ts as [|t ts IH]; intros c Hall; simpl in *.
  { injection Hall as ->. set_solver. }
  destruct (cluster_create c (Name t) (detail_of t) false) as [[e|] c'] eqn:E; [done|].
  rewrite (IH c' Hall). unfold cluster_create in E.
  destruct (cl_topics c !! Name t); [done|].
  destruct (cl_refuse c (Name t) (detail_of t)); [done|].
  injection E as <-. simpl. rewrite dom_insert_L. set_solver.
Qed.

(** Opening the session, the body, closing the session. *)
Lemma with_admin_spec broker body w c :
  w_net w !! broker = Some c →
  with_admin broker body w
  = let '(err, w') := body broker (world_after w (w_net w) [] [(broker, CallOpen)]) in
    (err, world_after w' (w_net w') [] [(broker, CallClose)]).
Proof.
  intros Hc. unfold with_admin, bind, newAdmin. rewrite Hc.
  unfold log_call, ret, Close, log_call, world_after. simpl. rewrite !app_nil_r.
  destruct (body broker _) as [err w']. simpl. by rewrite !app_nil_r.
Qed.

Lemma ReadFile_world path w : snd (ReadFile path w) = w.
Proof. unfold ReadFile. case_decide; [done|]. by destruct (w_files w !! path). Qed.

Lemma ReadFile_after path w net out calls :
  ReadFile path (world_after w net out calls)
  = (fst (ReadFile path w), world_after w net out calls).
Proof.
  unfold ReadFile, world_after. simpl. case_decide; [done|].
  by destruct (w_files w !! path).
Qed.

Lemma importTopics_spec `{Unicode} ord broker in_ ifNotExists w c :
  w_net w !! broker = Some c →
  importTopics ord broker in_ ifNotExists w
  = match read_snapshot w in_ with
    | Err e => (Some e, world_after w (w_net w) [] [(broker, CallOpen); (broker, CallClose)])
    | Ok file =>
      let '(err, w') := import_loop ord broker ifNotExists 0 (slice_elems (Topics file))
                          (world_after w (w_net w) [] [(broker, CallOpen)]) in
      (err, world_after w' (w_net w') [] [(broker, CallClose)])
    end.
Proof.
  intros Hc. unfold importTopics. rewrite (with_admin_spec _ _ _ c) by done.
  unfold bind at 1. rewrite ReadFile_after. unfold read_snapshot.
  destruct (ReadFile in_ w).1 as [data|e]; simpl.
  - destruct (Unmarshal data zero_ExportFile) as [file|e]; simpl; [done|].
    by rewrite world_after_after.
  - by rewrite world_after_after.
Qed.

(** ** Claims about import *)

(** C9. When the input file cannot be read or does not decode, import
    returns that error; all it has sent to the cluster is the opening and
    the closing of the session, and nothing else of the world changed. *)
Theorem import_bad_input_touches_nothing `{Unicode} (ord : RangeOrder)
    (broker in_ : string) (ifNotExists : bool) (w : World) (e : error) :
  is_Some (w_net w !! broker) →
  read_snapshot w in_ = Err e →
  importTopics ord broker in_ ifNotExists w
  = (Some e, world_after w (w_net w) [] [(broker, CallOpen); (broker, CallClose)]).
Proof.
  intros [c Hc] Hr. rewrite (importTopics_spec _ _ _ _ _ c) by done. by rewrite Hr.
Qed.

(** C6. With [ifNotExists] unset, when the topics before [t] are created
    and the cluster then answers that [t] already exists, import returns
    that error; it has sent creation requests for the topics up to [t] and
    for none after it, and the cluster holds the topics it had and the
    ones created before [t], no others. *)
Theorem import_fail_fast `{Unicode} (ord : RangeOrder) (broker in_ : string) (w : World)
    (c c1 : Cluster) (file : ExportFile) (pre post : list Topic) (t : Topic) :
  w_net w !! broker = Some c →
  read_snapshot w in_ = Ok file →
  slice_elems (Topics file) = pre ++ t :: post →
  create_all c pre = Some c1 →
  is_Some (cl_topics c1 !! Name t) →
  importTopics ord broker in_ false w
  = (Some ErrTopicAlreadyExists,
     world_after w (<[broker := c1]> (w_net w)) (created_notice ∘ Name <$> pre)
       ((broker, CallOpen) :: (create_call broker <$> pre ++ [t]) ++ [(broker, CallClose)]))
  ∧ dom (cl_topics c1) = dom (cl_topics c) ∪ list_to_set (Name <$> pre).
Proof.
  intros Hc Hr Hts Hall [d Hd]. split; [|by apply create_all_topics].
  rewrite (importTopics_spec _ _ _ _ _ c) by done. rewrite Hr, Hts.
  rewrite (import_loop_fail_fast _ _ _ _ _ _ ErrTopicAlreadyExists _ _ _ _ c c1);
    [|done..|].
  - rewrite world_after_after. simpl. by rewrite app_nil_r.
  - unfold cluster_create. by rewrite Hd.
Qed.

(** ** Bytes *)

Lemma b2z_range b : 0 <= b2z b < 256.
Proof. unfold b2z. pose proof (N_ascii_bounded b). lia. Qed.

Lemma z2b_b2z b : z2b (b2z b) = b.
Proof.
  unfold z2b. rewrite Z.mod_small by apply b2z_range.
  unfold b2z. rewrite N2Z.id. apply ascii_N_embedding.
Qed.

Lemma b2z_z2b x : b2z (z2b x) = x mod 256.
Proof.
  unfold z2b, b2z. rewrite N_ascii_embedding.
  - rewrite Z2N.id; [done|]. apply Z.mod_pos_bound. lia.
  - pose proof (Z.mod_pos_bound x 256). lia.
Qed.

Lemma b2z_inj a b : b2z a = b2z b → a = b.
Proof. intros E. by rewrite <- (z2b_b2z a), <- (z2b_b2z b), E. Qed.

Lemma ascii_eqb_b2z a b : ascii_eqb a b = (b2z a =? b2z b).
Proof.
  unfold ascii_eqb. destruct (Ascii.eqb_spec a b) as [->|Hne].
  - by rewrite Z.eqb_refl.
  - symmetry. apply Z.eqb_neq. intros E. by apply Hne, b2z_inj.
Qed.

(** ** UTF-8: encoding undoes decoding *)

(** Bit operations on small numbers as arithmetic. *)
Lemma lor_shiftl_add a n b :
  0 <= n → 0 <= b < 2 ^ n → Z.lor (Z.shiftl a n) b = a * 2 ^ n + b.
Proof.
  intros Hn Hb. rewrite Z.shiftl_mul_pow2 by done.
  assert (Z.land (a * 2 ^ n) b = 0) as Hland.
  { apply Z.bits_inj'. intros i Hi. rewrite Z.land_spec, Z.bits_0.
    destruct (Z.lt_ge_cases i n) as [Hlt|Hge].
    - rewrite Z.mul_pow2_bits_low by done. done.
    - apply andb_false_intro2.
      destruct (Z.eq_dec b 0) as [->|Hb0]; [apply Z.bits_0|].
      apply Z.bits_above_log2; [lia|].
      apply Z.log2_lt_pow2; [lia|]. apply Z.lt_le_trans with (2 ^ n); [lia|].
      apply Z.pow_le_mono_r; lia. }
  rewrite <- Z.lxor_lor by done. symmetry. by apply Z.add_nocarry_lxor.
Qed.

Lemma lor_shiftl_val a n b p :
  0 <= n → p = 2 ^ n → 0 <= b < p → Z.lor (Z.shiftl a n) b = a * p + b.
Proof. intros Hn -> Hb. by apply lor_shiftl_add. Qed.

Lemma shiftl_val a n p : 0 <= n → p = 2 ^ n → Z.shiftl a n = a * p.
Proof. intros Hn ->. by apply Z.shiftl_mul_pow2. Qed.

Lemma shiftr_val a n p : 0 <= n → p = 2 ^ n → Z.shiftr a n = a / p.
Proof. intros Hn ->. by apply Z.shiftr_div_pow2. Qed.

Lemma land_val x m n p : 0 <= n → m = Z.ones n → p = 2 ^ n → Z.land x m = x mod p.
Proof. intros Hn -> ->. by apply Z.land_ones. Qed.

Lemma lor_val (c k n x p : Z) :
  0 <= n → p = 2 ^ n → c = k * p → 0 <= x < p → Z.lor c x = c + x.
Proof.
  intros Hn -> -> Hx. rewrite <- Z.shiftl_mul_pow2 by done. rewrite lor_shiftl_add by done.
  by rewrite Z.shiftl_mul_pow2.
Qed.

Lemma rune2_arith s0 s1 : rune2 s0 s1 = (s0 mod 32) * 64 + s1 mod 64.
Proof.
  unfold rune2.
  rewrite (land_val s0 0x1F 5 32), (land_val s1 0x3F 6 64) by done.
  pose proof (Z.mod_pos_bound s1 64).
  by rewrite (lor_shiftl_val _ 6 _ 64) by (done || lia).
Qed.

Lemma rune3_arith s0 s1 s2 :
  rune3 s0 s1 s2 = (s0 mod 16) * 4096 + (s1 mod 64) * 64 + s2 mod 64.
Proof.
  unfold rune3.
  rewrite (land_val s0 0x0F 4 16), (land_val s1 0x3F 6 64), (land_val s2 0x3F 6 64) by done.
  pose proof (Z.mod_pos_bound s1 64). pose proof (Z.mod_pos_bound s2 64).
  rewrite (shiftl_val (s1 mod 64) 6 64) by done.
  rewrite (lor_shiftl_val _ 12 _ 4096) by (done || lia).
  replace (s0 mod 16 * 4096 + s1 mod 64 * 64) with (((s0 mod 16) * 64 + s1 mod 64) * 64) by lia.
  rewrite <- (shiftl_val ((s0 mod 16) * 64 + s1 mod 64) 6 64) by done.
  rewrite (lor_shiftl_val _ 6 _ 64) by (done || lia).
  rewrite ?(shiftl_val _ 6 64), ?(shiftl_val _ 12 4096) by done. lia.
Qed.

Lemma rune4_arith s0 s1 s2 s3 :
  rune4 s0 s1 s2 s3
  = (s0 mod 8) * 262144 + (s1 mod 64) * 4096 + (s2 mod 64) * 64 + s3 mod 64.
Proof.
  unfold rune4.
  rewrite (land_val s0 0x07 3 8), (land_val s1 0x3F 6 64), (land_val s2 0x3F 6 64),
    (land_val s3 0x3F 6 64) by done.
  pose proof (Z.mod_pos_bound s1 64). pose proof (Z.mod_pos_bound s2 64).
  pose proof (Z.mod_pos_bound s3 64).
  rewrite (shiftl_val (s1 mod 64) 12 4096) by done.
  rewrite (lor_shiftl_val _ 18 _ 262144) by (done || lia).
  replace (s0 mod 8 * 262144 + s1 mod 64 * 4096)
    with (((s0 mod 8) * 64 + s1 mod 64) * 4096) by lia.
  rewrite <- (shiftl_val ((s0 mod 8) * 64 + s1 mod 64) 12 4096) by done.
  rewrite (shiftl_val (s2 mod 64) 6 64) by done.
  rewrite (lor_shiftl_val _ 12 _ 4096) by (done || lia).
  replace (((s0 mod 8) * 64 + s1 mod 64) * 4096 + s2 mod 64 * 64)
    with ((((s0 mod 8) * 64 + s1 mod 64) * 64 + s2 mod 64) * 64) by lia.
  rewrite <- (shiftl_val (((s0 mod 8) * 64 + s1 mod 64) * 64 + s2 mod 64) 6 64) by done.
  rewrite (lor_shiftl_val _ 6 _ 64) by (done || lia).
  rewrite ?(shiftl_val _ 6 64), ?(shiftl_val _ 12 4096) by done. lia.
Qed.

Ltac decide_cmp :=
  repeat match goal with
         | |- context [?a <=? ?b] => destruct (Z.leb_spec a b); try lia
         | |- context [?a <? ?b] => destruct (Z.ltb_spec a b); try lia
         | |- context [?a =? ?b] => destruct (Z.eqb_spec a b); try lia
         end.

Lemma EncodeRune_1 r : 0 <= r <= 0x7F → utf8.EncodeRune r = [z2b r].
Proof. intros Hr. unfold utf8.EncodeRune. by decide_cmp. Qed.

Lemma div_range r p lo hi : 0 < p → lo * p <= r → r < hi * p → lo <= r / p < hi.
Proof.
  intros Hp Hlo Hhi. split.
  - apply Z.div_le_lower_bound; lia.
  - apply Z.div_lt_upper_bound; lia.
Qed.

Lemma EncodeRune_2 r :
  0x80 <= r <= 0x7FF →
  utf8.EncodeRune r = [z2b (0xC0 + r / 64); z2b (0x80 + r mod 64)].
Proof.
  intros Hr. unfold utf8.EncodeRune.
  pose proof (Z.mod_pos_bound r 64). pose proof (div_range r 64 0 32).
  decide_cmp; simpl.
  all: rewrite (shiftr_val r 6 64), (land_val r 0x3F 6 64) by done.
  all: by rewrite (lor_val 0xC0 6 5 _ 32), (lor_val 0x80 2 6 _ 64) by (done || lia).
Qed.

Lemma EncodeRune_3 r :
  0x800 <= r <= 0xFFFF → ¬ (0xD800 <= r <= 0xDFFF) →
  utf8.EncodeRune r
  = [z2b (0xE0 + r / 4096); z2b (0x80 + (r / 64) mod 64); z2b (0x80 + r mod 64)].
Proof.
  intros Hr Hs. unfold utf8.EncodeRune, utf8.MaxRune.
  pose proof (Z.mod_pos_bound r 64). pose proof (Z.mod_pos_bound (r / 64) 64).
  pose proof (div_range r 4096 0 16).
  decide_cmp; simpl.
  all: rewrite (shiftr_val r 6 64), (shiftr_val r 12 4096),
         (land_val r 0x3F 6 64), (land_val (r / 64) 0x3F 6 64) by done.
  all: by rewrite (lor_val 0xE0 14 4 _ 16), !(lor_val 0x80 2 6 _ 64) by (done || lia).
Qed.

Lemma EncodeRune_4 r :
  0x10000 <= r <= 0x10FFFF →
  utf8.EncodeRune r
  = [z2b (0xF0 + r / 262144); z2b (0x80 + (r / 4096) mod 64);
     z2b (0x80 + (r / 64) mod 64); z2b (0x80 + r mod 64)].
Proof.
  intros Hr. unfold utf8.EncodeRune, utf8.MaxRune.
  pose proof (Z.mod_pos_bound r 64). pose proof (Z.mod_pos_bound (r / 64) 64).
  pose proof (Z.mod_pos_bound (r / 4096) 64).
  pose proof (div_range r 262144 0 8).
  decide_cmp; simpl.
  all: rewrite (shiftr_val r 6 64), (shiftr_val r 12 4096), (shiftr_val r 18 262144),
    (land_val r 0x3F 6 64), (land_val (r / 64) 0x3F 6 64),
    (land_val (r / 4096) 0x3F 6 64) by done.
  all: by rewrite (lor_val 0xF0 30 3 _ 8), !(lor_val 0x80 2 6 _ 64) by (done || lia).
Qed.

(** What the table [first] says of a leader. *)
Lemma first_multi s0 sz lo hi :
  utf8.first s0 = utf8.LeadMulti sz lo hi →
  0xC2 <= s0 <= 0xF4 ∧ 0x80 <= lo ∧ hi <= 0xBF ∧
  ((sz = 2%nat ∧ s0 <= 0xDF) ∨
   (sz = 3%nat ∧ 0xE0 <= s0 <= 0xEF ∧ (s0 = 0xE0 → 0xA0 <= lo) ∧ (s0 = 0xED → hi <= 0x9F)) ∨
   (sz = 4%nat ∧ 0xF0 <= s0 ∧ (s0 = 0xF0 → 0x90 <= lo) ∧ (s0 = 0xF4 → hi <= 0x8F))).
Proof.
  unfold utf8.first. decide_cmp; intros [= <- <- <-] || intros [=]; lia.
Qed.

Lemma encode_rune2 s0 s1 lo hi :
  0 <= s0 < 256 → utf8.first s0 = utf8.LeadMulti 2 lo hi → lo <= s1 <= hi →
  utf8.EncodeRune (rune2 s0 s1) = [z2b s0; z2b s1].
Proof.
  intros Hs0 Hf Hs1. apply first_multi in Hf as (? & ? & ? & Hsz).
  rewrite rune2_arith. rewrite EncodeRune_2 by (Z.div_mod_to_equations; lia).
  repeat f_equal; Z.div_mod_to_equations; lia.
Qed.

Lemma encode_rune3 s0 s1 s2 lo hi :
  0 <= s0 < 256 → utf8.first s0 = utf8.LeadMulti 3 lo hi → lo <= s1 <= hi →
  0x80 <= s2 <= 0xBF →
  utf8.EncodeRune (rune3 s0 s1 s2) = [z2b s0; z2b s1; z2b s2].
Proof.
  intros Hs0 Hf Hs1 Hs2. apply first_multi in Hf as (? & ? & ? & Hsz).
  rewrite rune3_arith.
  rewrite EncodeRune_3 by (Z.div_mod_to_equations; lia).
  repeat f_equal; Z.div_mod_to_equations; lia.
Qed.

Lemma encode_rune4 s0 s1 s2 s3 lo hi :
  0 <= s0 < 256 → utf8.first s0 = utf8.LeadMulti 4 lo hi → lo <= s1 <= hi →
  0x80 <= s2 <= 0xBF → 0x80 <= s3 <= 0xBF →
  utf8.EncodeRune (rune4 s0 s1 s2 s3) = [z2b s0; z2b s1; z2b s2; z2b s3].
Proof.
  intros Hs0 Hf Hs1 Hs2 Hs3. apply first_multi in Hf as (? & ? & ? & Hsz).
  rewrite rune4_arith.
  rewrite EncodeRune_4 by (Z.div_mod_to_equations; lia).
  repeat f_equal; Z.div_mod_to_equations; lia.
Qed.

Lemma first_ascii s0 : utf8.first s0 = utf8.LeadAscii → s0 < 0x80.
Proof. unfold utf8.first. decide_cmp; by intros [=]. Qed.

Lemma first_of_ascii s0 : s0 < 0x80 → utf8.first s0 = utf8.LeadAscii.
Proof. intros H. unfold utf8.first. by decide_cmp. Qed.

Lemma range_check lo hi x : (x <? lo) || (hi <? x) = false ↔ lo <= x <= hi.
Proof. rewrite orb_false_iff, !Z.ltb_ge. lia. Qed.

(** A decoding step that does not meet an invalid byte reads a whole
    sequence of two to four bytes, all of them above the ASCII range; the
    rune it yields encodes to those bytes, and the step does not look past
    them. *)
Lemma DecodeRune_multi (s : list ascii) (c : Z) (size : nat) :
  utf8.DecodeRune s = (c, size) →
  0x80 <= utf8.at_ s 0 →
  ¬ (c = utf8.RuneError ∧ size = 1%nat) →
  ∃ chunk t,
    s = chunk ++ t ∧ length chunk = size ∧ (2 <= size <= 4)%nat ∧
    utf8.EncodeRune c = chunk ∧
    Forall (λ b, 0x80 <= b2z b) chunk ∧
    ∀ t', utf8.DecodeRune (chunk ++ t') = (c, size).
Proof.
  destruct s as [|b0 s]; [intros _ Hb; by vm_compute in Hb|].
  unfold utf8.DecodeRune, utf8.at_. cbn [length nth]. intros Hd Hb0 Hne.
  change (S (length s) <? 1)%nat with false in Hd. cbn iota in Hd.
  pose proof (b2z_range b0) as Hr0.
  destruct (utf8.first (b2z b0)) as [| |sz lo hi] eqn:F.
  { apply first_ascii in F. lia. }
  { injection Hd as <- <-. by destruct Hne. }
  pose proof (first_multi _ _ _ _ F) as (Hs0 & Hlo & Hhi & Hsz).
  destruct s as [|b1 s].
  { assert ((1 <? sz)%nat = true) as E by (apply Nat.ltb_lt; lia).
    simpl in Hd. rewrite E in Hd. injection Hd as <- <-. by destruct Hne. }
  assert ((S (length (b1 :: s)) <? sz)%nat = false ∨
          (S (length (b1 :: s)) <? sz)%nat = true) as [E|E]
    by (destruct (S (length (b1 :: s)) <? sz)%nat; auto).
  2:{ rewrite E in Hd. injection Hd as <- <-. by destruct Hne. }
  rewrite E in Hd. apply Nat.ltb_ge in E. cbn [nth] in Hd.
  destruct ((b2z b1 <? lo) || (hi <? b2z b1)) eqn:R1.
  { injection Hd as <- <-. by destruct Hne. }
  apply range_check in R1.
  destruct Hsz as [[-> Hs0']|[(-> & Hs0' & _)|(-> & Hs0' & _)]].
  - (* two bytes *)
    cbn [Nat.leb] in Hd. injection Hd as <- <-.
    exists [b0; b1], s. split; [done|split; [done|split; [lia|split; [|split]]]].
    + fold (rune2 (b2z b0) (b2z b1)). rewrite (encode_rune2 _ _ lo hi) by done.
      by rewrite !z2b_b2z.
    + repeat constructor; lia.
    + intros t'. unfold utf8.DecodeRune, utf8.at_. cbn [length nth app Nat.ltb Nat.leb].
      rewrite F. cbn [Nat.leb].
      apply range_check in R1. by rewrite R1.
  - (* three bytes *)
    cbn [Nat.leb] in Hd.
    destruct s as [|b2 s]; [simpl in E; lia|]. cbn [nth] in Hd.
    destruct ((b2z b2 <? 128) || (191 <? b2z b2)) eqn:R2.
    { injection Hd as <- <-. by destruct Hne. }
    injection Hd as <- <-. apply range_check in R2.
    exists [b0; b1; b2], s. split; [done|split; [done|split; [lia|split; [|split]]]].
    + fold (rune3 (b2z b0) (b2z b1) (b2z b2)).
      rewrite (encode_rune3 _ _ _ lo hi) by done. by rewrite !z2b_b2z.
    + repeat constructor; lia.
    + intros t'. unfold utf8.DecodeRune, utf8.at_. cbn [length nth app Nat.ltb Nat.leb].
      rewrite F. cbn [Nat.leb].
      apply range_check in R1, R2. by rewrite R1, R2.
  - (* four bytes *)
    cbn [Nat.leb] in Hd.
    destruct s as [|b2 [|b3 s]]; [simpl in E; lia..|]. cbn [nth] in Hd.
    destruct ((b2z b2 <? 128) || (191 <? b2z b2)) eqn:R2.
    { injection Hd as <- <-. by destruct Hne. }
    destruct ((b2z b3 <? 128) || (191 <? b2z b3)) eqn:R3.
    { injection Hd as <- <-. by destruct Hne. }
    injection Hd as <- <-. apply range_check in R2, R3.
    exists [b0; b1; b2; b3], s. split; [done|split; [done|split; [lia|split; [|split]]]].
    + fold (rune4 (b2z b0) (b2z b1) (b2z b2) (b2z b3)).
      rewrite (encode_rune4 _ _ _ _ lo hi) by done. by rewrite !z2b_b2z.
    + repeat constructor; lia.
    + intros t'. unfold utf8.DecodeRune, utf8.at_. cbn [length nth app Nat.ltb Nat.leb].
      rewrite F. cbn [Nat.leb].
      apply range_check in R1, R2, R3. by rewrite R1, R2, R3.
Qed.

(** ** Quoting a string and reading it back *)

Ltac each_byte b :=
  destruct b as [[] [] [] [] [] [] [] []].

Lemma scan_string_ascii (b : ascii) (X : list ascii) :
  b2z b < 0x80 →
  json.scan_string (ascii_chunk b ++ X)
  = '(raw, r) ← json.scan_string X; Some (ascii_chunk b ++ raw, r).
Proof.
  each_byte b; intros H; vm_compute in H; try discriminate H; reflexivity.
Qed.

Lemma unquote_loop_ascii (b : ascii) (fuel : nat) (X : list ascii) :
  b2z b < 0x80 →
  json.unquote_loop (S fuel) (ascii_chunk b ++ X)
  = out ← json.unquote_loop fuel X; Some (b :: out).
Proof.
  each_byte b; intros H; vm_compute in H; try discriminate H; reflexivity.
Qed.

Lemma ascii_chunk_length b : (1 <= length (ascii_chunk b))%nat.
Proof.
  unfold ascii_chunk, json.escape_ascii.
  repeat case_match; simpl; lia.
Qed.

Lemma high_byte_plain b :
  0x80 <= b2z b →
  ascii_eqb b c_quote = false ∧ ascii_eqb b c_backslash = false ∧
  (b2z b <? 0x20) = false ∧ (b2z b <? utf8.RuneSelf) = false.
Proof.
  intros Hb. rewrite !ascii_eqb_b2z.
  change (b2z c_quote) with 34. change (b2z c_backslash) with 92.
  unfold utf8.RuneSelf. repeat split; lia.
Qed.

Lemma scan_string_high (chunk X : list ascii) :
  Forall (λ b, 0x80 <= b2z b) chunk →
  json.scan_string (chunk ++ X)
  = '(raw, r) ← json.scan_string X; Some (chunk ++ raw, r).
Proof.
  induction 1 as [|b chunk Hb _ IH]; simpl.
  { by destruct (json.scan_string X) as [[raw r]|]. }
  destruct (high_byte_plain b Hb) as (-> & -> & -> & _).
  rewrite IH. by destruct (json.scan_string X) as [[raw r]|].
Qed.

Lemma scan_string_line_sep (c : Z) (X : list ascii) :
  c = 0x2028 ∨ c = 0x2029 →
  json.scan_string (line_sep_chunk c ++ X)
  = '(raw, r) ← json.scan_string X; Some (line_sep_chunk c ++ raw, r).
Proof. intros [-> | ->]; reflexivity. Qed.

Lemma unquote_loop_line_sep (c : Z) (fuel : nat) (X : list ascii) :
  c = 0x2028 ∨ c = 0x2029 →
  json.unquote_loop (S fuel) (line_sep_chunk c ++ X)
  = out ← json.unquote_loop fuel X; Some (utf8.EncodeRune c ++ out).
Proof. intros [-> | ->]; reflexivity. Qed.

Lemma unquote_loop_high (chunk X : list ascii) (c : Z) (fuel : nat) :
  chunk ≠ [] →
  Forall (λ b, 0x80 <= b2z b) chunk →
  utf8.DecodeRune (chunk ++ X) = (c, length chunk) →
  json.unquote_loop (S fuel) (chunk ++ X)
  = out ← json.unquote_loop fuel X; Some (utf8.EncodeRune c ++ out).
Proof.
  intros Hne Hhigh Hd. destruct chunk as [|b chunk]; [done|].
  apply Forall_cons in Hhigh as [Hb _].
  cbn [json.unquote_loop app].
  destruct (high_byte_plain b Hb) as (-> & -> & -> & ->). simpl orb. cbv iota.
  change (b :: chunk ++ X) with ((b :: chunk) ++ X). rewrite Hd.
  by rewrite drop_app_length.
Qed.

(** The fuel of the loops: more than enough changes nothing. *)
Lemma valid_loop_step n b t :
  utf8.valid_loop (S n) (b :: t) = true →
  ∃ c size, utf8.DecodeRune (b :: t) = (c, size) ∧
            ¬ (c = utf8.RuneError ∧ size = 1%nat) ∧
            utf8.valid_loop n (drop size (b :: t)) = true.
Proof.
  cbn [utf8.valid_loop]. destruct (utf8.DecodeRune (b :: t)) as [c size].
  destruct ((c =? utf8.RuneError) && (size =? 1)%nat) eqn:E; [done|].
  intros Hv. exists c, size. split_and!; [done| |done].
  intros [-> ->]. by rewrite Z.eqb_refl in E.
Qed.

Lemma DecodeRune_ascii b t :
  b2z b < 0x80 → utf8.DecodeRune (b :: t) = (b2z b, 1%nat).
Proof.
  intros Hb. unfold utf8.DecodeRune, utf8.at_. cbn [length nth].
  change (S (length t) <? 1)%nat with false. cbv iota.
  by rewrite first_of_ascii.
Qed.

(** The quoted form of valid UTF-8 is accepted by the scanner up to the
    closing quote and unquotes to the bytes quoted. *)
Lemma quote_roundtrip (n : nat) (bs : list ascii) :
  (length bs <= n)%nat →
  utf8.valid_loop n bs = true →
  (∀ rest, json.scan_string (json.appendString_loop n bs ++ c_quote :: rest)
           = Some (json.appendString_loop n bs, rest)) ∧
  (∀ fuel, (length (json.appendString_loop n bs) <= fuel)%nat →
           json.unquote_loop fuel (json.appendString_loop n bs) = Some bs).
Proof.
  revert bs. induction n as [|n IH]; intros bs Hlen Hv.
  { destruct bs; [|simpl in Hlen; lia]. split; [done|]. intros [|fuel] _; done. }
  destruct bs as [|b t].
  { split; [done|]. intros [|fuel] _; done. }
  simpl in Hlen.
  apply valid_loop_step in Hv as (c & size & Hd & Hne & Hv).
  cbn [json.appendString_loop].
  destruct (Z.ltb_spec (b2z b) utf8.RuneSelf) as [Hb|Hb]; unfold utf8.RuneSelf in Hb.
  - (* one ASCII byte *)
    rewrite DecodeRune_ascii in Hd by done. injection Hd as <- <-.
    simpl in Hv. rewrite ?drop_0 in Hv.
    destruct (IH t) as [IHs IHu]; [lia|done|].
    fold (ascii_chunk b). split.
    + intros rest. rewrite <- app_assoc, scan_string_ascii by done.
      by rewrite IHs.
    + intros fuel Hf. rewrite length_app in Hf.
      pose proof (ascii_chunk_length b).
      destruct fuel as [|fuel]; [lia|].
      rewrite unquote_loop_ascii by done. rewrite IHu by lia. done.
  - (* a sequence of two to four bytes *)
    destruct (DecodeRune_multi (b :: t) c size) as
      (chunk & t' & Hs & Hsize & Hsz & Henc & Hhigh & Hloc); [done|done|done|].
    assert (take 4 (b :: t) = chunk ++ take (4 - size) t') as Htake.
    { rewrite Hs, take_app, Hsize. rewrite take_ge by lia. done. }
    rewrite Htake, Hloc.
    assert ((c =? utf8.RuneError) && (size =? 1)%nat = false) as ->.
    { apply andb_false_iff. right. apply Nat.eqb_neq. lia. }
    assert (drop size (b :: t) = t') as Hdrop.
    { rewrite Hs, <- Hsize. apply drop_app_length. }
    assert (take size (b :: t) = chunk) as Htk.
    { rewrite Hs, <- Hsize. apply take_app_length. }
    rewrite Hdrop, Htk. rewrite Hdrop in Hv.
    assert (chunk ≠ []) as Hchunk by (intros ->; simpl in Hsize; lia).
    assert (length t' <= n)%nat as Hlen'.
    { assert (length (b :: t) = length chunk + length t')%nat as E
        by (by rewrite Hs, length_app).
      simpl in E. lia. }
    destruct (IH t') as [IHs IHu]; [done|done|].
    destruct ((c =? 0x2028) || (c =? 0x2029)) eqn:Esep.
    + assert (c = 0x2028 ∨ c = 0x2029) as Hc by lia.
      change (c_backslash :: bytes_of "u202" ++
              json.hex (Z.land c 15) :: json.appendString_loop n t')
        with (line_sep_chunk c ++ json.appendString_loop n t').
      split.
      * intros rest. rewrite <- app_assoc, scan_string_line_sep by done.
        by rewrite IHs.
      * intros fuel Hf. rewrite length_app in Hf.
        destruct fuel as [|fuel]; [simpl in Hf; lia|].
        rewrite unquote_loop_line_sep by done. rewrite IHu by (simpl in Hf; lia).
        change (Some (utf8.EncodeRune c ++ t') = Some (b :: t)). by rewrite Henc, Hs.
    + split.
      * intros rest. rewrite <- app_assoc, scan_string_high by done.
        by rewrite IHs.
      * intros fuel Hf. rewrite length_app in Hf.
        destruct fuel as [|fuel]; [lia|].
        rewrite (unquote_loop_high _ _ c) by (by rewrite ?Hsize).
        rewrite IHu by lia.
        change (Some (utf8.EncodeRune c ++ t') = Some (b :: t)). by rewrite Henc, Hs.
Qed.

Lemma string_of_bytes_of s : string_of (bytes_of s) = s.
Proof. apply string_of_list_ascii_of_string. Qed.

Lemma bytes_of_string_of l : bytes_of (string_of l) = l.
Proof. apply list_ascii_of_string_of_list_ascii. Qed.

Lemma length_bytes_of s : length (bytes_of s) = String.length s.
Proof. induction s; simpl; by f_equal. Qed.

(** A quoted valid string, as the scanner meets it after the opening
    quote. *)
Lemma scan_quoted (s : string) (rest : list ascii) :
  utf8.ValidString s = true →
  ∃ raw, json.appendString s = c_quote :: raw ++ [c_quote] ∧
         json.scan_string (raw ++ c_quote :: rest) = Some (raw, rest) ∧
         json.unquote raw = Some s.
Proof.
  intros Hv. unfold utf8.ValidString, utf8.Valid in Hv.
  exists (json.appendString_loop (String.length s) (bytes_of s)).
  rewrite length_bytes_of in Hv.
  destruct (quote_roundtrip (String.length s) (bytes_of s)) as [Hs Hu];
    [by rewrite length_bytes_of|done|].
  split; [done|]. split; [apply Hs|].
  unfold json.unquote. rewrite Hu by done. simpl. by rewrite string_of_bytes_of.
Qed.

(** ** Writing an integer and reading it back *)

Lemma b2z_digit k : 0 <= k < 10 → b2z (digit k) = 48 + k.
Proof. intros Hk. unfold digit. rewrite b2z_z2b. apply Z.mod_small. lia. Qed.

Lemma is_digit_digit k : 0 <= k < 10 → json.is_digit (digit k) = true.
Proof.
  intros Hk. unfold json.is_digit. rewrite b2z_digit by done.
  apply andb_true_iff. split; lia.
Qed.

Lemma digits_value_snoc ds d : digits_value (ds ++ [d]) = digits_value ds * 10 + (b2z d - 48).
Proof. unfold digits_value. by rewrite foldl_snoc. Qed.

(** The digits [strconv] writes for a natural number: its decimal
    spelling, without a leading zero unless the number is below ten. *)
Lemma digits_loop_spec (fuel : nat) (n : Z) (acc : list ascii) :
  0 <= n < 2 ^ Z.of_nat (S fuel) →
  ∃ d ds,
    json.digits_loop (S fuel) n acc = d :: ds ++ acc ∧
    Forall (λ c, json.is_digit c = true) (d :: ds) ∧
    digits_value (d :: ds) = n ∧
    (n < 10 → ds = []) ∧ (10 <= n → d ≠ "0"%char).
Proof.
  revert n acc. induction fuel as [|fuel IH]; intros n acc Hn.
  all: cbn [json.digits_loop]; fold (digit (n mod 10)).
  all: pose proof (Z.mod_pos_bound n 10) as Hmod.
  all: destruct (Z.ltb_spec n 10) as [Hlt|Hge];
    [rewrite Z.mod_small by lia; exists (digit n), [];
     split; [done|split; [|split; [|split; [done|lia]]]];
     [constructor; [|done]; apply is_digit_digit; lia
     |unfold digits_value; simpl; rewrite b2z_digit by lia; lia]|].
  { change (2 ^ Z.of_nat 1) with 2 in Hn. lia. }
  destruct (IH (n / 10) (digit (n mod 10) :: acc)) as (d & ds & E & Hds & Hval & Hsmall & Hlead).
  { split; [apply Z.div_pos; lia|]. apply Z.div_lt_upper_bound; [lia|].
    rewrite (Nat2Z.inj_succ (S fuel)), Z.pow_succ_r in Hn by lia. lia. }
  exists d, (ds ++ [digit (n mod 10)]).
  split; [|split; [|split; [|split]]].
  - cbn [json.digits_loop] in E. unfold digit in E |- *.
    rewrite E. by rewrite <- app_assoc.
  - rewrite app_comm_cons. apply Forall_app. split; [done|].
    constructor; [|done]. apply is_digit_digit. lia.
  - rewrite app_comm_cons, digits_value_snoc, Hval, b2z_digit by lia.
    pose proof (Z.div_mod n 10). lia.
  - lia.
  - intros _. destruct (Z.ltb_spec (n / 10) 10) as [Hq|Hq]; [|by apply Hlead].
    rewrite (Hsmall Hq) in Hval. unfold digits_value in Hval. simpl in Hval.
    intros ->. change (b2z "0") with 48 in Hval.
    assert (1 <= n / 10) by (apply Z.div_le_lower_bound; lia). lia.
Qed.

Lemma format_uint_spec (n : Z) :
  0 <= n →
  ∃ d ds,
    json.format_uint n = d :: ds ∧
    Forall (λ c, json.is_digit c = true) (d :: ds) ∧
    digits_value (d :: ds) = n ∧
    (n < 10 → ds = []) ∧ (10 <= n → d ≠ "0"%char).
Proof.
  intros Hn. unfold json.format_uint.
  destruct (digits_loop_spec (Z.to_nat (Z.log2 n)) n []) as (d & ds & E & H).
  { split; [done|]. rewrite Nat2Z.inj_succ, Z2Nat.id by apply Z.log2_nonneg.
    destruct (Z.eq_dec n 0) as [->|Hn0]; [done|].
    apply Z.log2_spec. lia. }
  exists d, ds. by rewrite E, app_nil_r.
Qed.

Lemma span_digits_all ds rest :
  Forall (λ c, json.is_digit c = true) ds → ends_number rest →
  json.span_digits (ds ++ rest) = (ds, rest).
Proof.
  intros Hds Hrest. induction Hds as [|d ds Hd _ IH]; simpl.
  - destruct rest as [|c rest]; [done|]. simpl. by destruct Hrest as [-> _].
  - by rewrite Hd, IH.
Qed.

Lemma digit_not_minus d : json.is_digit d = true → ascii_eqb d "-"%char = false.
Proof.
  unfold json.is_digit. rewrite ascii_eqb_b2z. change (b2z "-") with 45. lia.
Qed.

Lemma scan_number_digits (neg : bool) d ds rest :
  Forall (λ c, json.is_digit c = true) (d :: ds) →
  (ds = [] ∨ d ≠ "0"%char) →
  ends_number rest →
  json.scan_number ((if neg then ["-"%char] else []) ++ d :: ds ++ rest)
  = Some ((if neg then ["-"%char] else []) ++ d :: ds, rest).
Proof.
  intros Hds Hlead Hrest. apply Forall_cons in Hds as [Hd Hds].
  unfold json.scan_number.
  assert (ascii_eqb d "-"%char = false) as Hm by (by apply digit_not_minus).
  destruct neg; cbn [app].
  - change (ascii_eqb "-" "-") with true. cbv iota.
    destruct (ascii_eqb d "0"%char) eqn:E.
    + destruct Hlead as [->|Hne]; [|unfold ascii_eqb in E; by apply Ascii.eqb_eq in E].
      cbn [mbind option_bind app]. destruct rest as [|c rest].
      * done.
      * destruct Hrest as (_ & E1 & E2 & E3). rewrite E1. cbn [mbind option_bind].
        rewrite E2, E3. done.
    + rewrite Hd, span_digits_all by done.  cbn [mbind option_bind app]. destruct rest as [|c rest].
      * cbn. by rewrite !app_nil_r.
      * destruct Hrest as (_ & E1 & E2 & E3). rewrite E1. cbn [mbind option_bind].
        rewrite E2, E3. cbn. by rewrite !app_nil_r.
  - rewrite Hm.
    destruct (ascii_eqb d "0"%char) eqn:E.
    + destruct Hlead as [->|Hne]; [|unfold ascii_eqb in E; by apply Ascii.eqb_eq in E].
      cbn [mbind option_bind app]. destruct rest as [|c rest].
      * done.
      * destruct Hrest as (_ & E1 & E2 & E3). rewrite E1. cbn [mbind option_bind].
        rewrite E2, E3. done.
    + rewrite Hd, span_digits_all by done.  cbn [mbind option_bind app]. destruct rest as [|c rest].
      * cbn. by rewrite !app_nil_r.
      * destruct Hrest as (_ & E1 & E2 & E3). rewrite E1. cbn [mbind option_bind].
        rewrite E2, E3. cbn. by rewrite !app_nil_r.
Qed.

(** The scanner reads a written integer as one number. *)
Lemma scan_number_AppendInt (n : Z) (rest : list ascii) :
  ends_number rest →
  json.scan_number (json.AppendInt n ++ rest) = Some (json.AppendInt n, rest).
Proof.
  intros Hrest. unfold json.AppendInt.
  destruct (Z.ltb_spec n 0) as [Hneg|Hpos].
  - destruct (format_uint_spec (- n)) as (d & ds & -> & Hds & _ & Hsmall & Hlead); [lia|].
    apply (scan_number_digits true); [done| |done].
    destruct (Z.ltb_spec (- n) 10); [left|right]; auto.
  - destruct (format_uint_spec n) as (d & ds & -> & Hds & _ & Hsmall & Hlead); [lia|].
    apply (scan_number_digits false); [done| |done].
    destruct (Z.ltb_spec n 10); [left|right]; auto.
Qed.

Lemma forallb_of_Forall {A} (f : A → bool) (l : list A) :
  Forall (λ x, f x = true) l → forallb f l = true.
Proof. induction 1 as [|x l Hx _ IH]; simpl; [done|]. by rewrite Hx, IH. Qed.

(** [ParseInt] gives back the integer that was written. *)
Lemma ParseInt_AppendInt (n : Z) :
  - 2 ^ 63 <= n < 2 ^ 63 → ParseInt (json.AppendInt n) = Some n.
Proof.
  intros Hn. unfold json.AppendInt, ParseInt.
  destruct (Z.ltb_spec n 0) as [Hneg|Hpos].
  - destruct (format_uint_spec (- n)) as (d & ds & -> & Hds & Hval & _); [lia|].
    change (ascii_eqb "-" "-") with true. cbv iota.
    assert (forallb json.is_digit (d :: ds) = true) as ->
      by (by apply forallb_of_Forall).
    simpl negb. cbv iota. fold (digits_value (d :: ds)). rewrite Hval.
    rewrite Z.opp_involutive.
    destruct (Z.leb_spec (- 2 ^ 63) n), (Z.ltb_spec n (2 ^ 63)); try lia. done.
  - destruct (format_uint_spec n) as (d & ds & -> & Hds & Hval & _); [lia|].
    pose proof (Forall_inv Hds) as Hd. rewrite (digit_not_minus d Hd).
    assert (forallb json.is_digit (d :: ds) = true) as ->
      by (by apply forallb_of_Forall).
    simpl negb. cbv iota. fold (digits_value (d :: ds)). rewrite Hval.
    destruct (Z.leb_spec (- 2 ^ 63) n), (Z.ltb_spec n (2 ^ 63)); try lia. done.
Qed.

(** ** The scanner reads what the encoder writes *)

(** Induction over [GoValue] that reaches the values inside slices, maps
    and structs. *)
Section GoValue_nested_ind.
Variable P : json.GoValue → Prop.
Hypothesis Hstring : ∀ s, P (json.GoString s).
Hypothesis Hint : ∀ n, P (json.GoInt n).
Hypothesis Hbool : ∀ b, P (json.GoBool b).
Hypothesis Hslice_nil : P (json.GoSlice None).
Hypothesis Hslice : ∀ xs, Forall P xs → P (json.GoSlice (Some xs)).
Hypothesis Hmap_nil : P (json.GoMap None).
Hypothesis Hmap : ∀ kvs, Forall (λ kv, P kv.2) kvs → P (json.GoMap (Some kvs)).
Hypothesis Hstruct : ∀ fs, Forall (λ f, P f.2) fs → P (json.GoStruct fs).
Hypothesis Hchan : P json.GoChan.
Hypothesis Hfunc : P json.GoFunc.

Fixpoint GoValue_nested_ind (v : json.GoValue) : P v :=
  match v with
  | json.GoString s => Hstring s
  | json.GoInt n => Hint n
  | json.GoBool b => Hbool b
  | json.GoSlice None => Hslice_nil
  | json.GoSlice (Some xs) =>
    Hslice xs ((fix go (l : list json.GoValue) : Forall P l :=
                  match l with
                  | [] => List.Forall_nil P
                  | x :: l => @List.Forall_cons _ _ x l (GoValue_nested_ind x) (go l)
                  end) xs)
  | json.GoMap None => Hmap_nil
  | json.GoMap (Some kvs) =>
    Hmap kvs ((fix go (l : list (string * json.GoValue)) : Forall (λ kv, P kv.2) l :=
                 match l with
                 | [] => List.Forall_nil _
                 | kv :: l => @List.Forall_cons _ (λ kv, P kv.2) kv l (GoValue_nested_ind kv.2) (go l)
                 end) kvs)
  | json.GoStruct fs =>
    Hstruct fs ((fix go (l : list (string * bool * json.GoValue)) : Forall (λ f, P f.2) l :=
                   match l with
                   | [] => List.Forall_nil _
                   | f :: l => @List.Forall_cons _ (λ f, P f.2) f l (GoValue_nested_ind f.2) (go l)
                   end) fs)
  | json.GoChan => Hchan
  | json.GoFunc => Hfunc
  end.
End GoValue_nested_ind.

Lemma ends_value_number rest : ends_value rest → ends_number rest.
Proof. destruct rest as [|c rest]; [done|]. intros [-> | ->]; by vm_compute. Qed.

Lemma value_head_plain c :
  value_head c →
  json.isSpace c = false ∧ ascii_eqb c "]"%char = false ∧ ascii_eqb c "}"%char = false.
Proof.
  intros [->|[->|[H|[->|[->|[->|[->| ->]]]]]]]; try by vm_compute.
  revert H. each_byte c; vm_compute; intros H; try discriminate H; done.
Qed.

Lemma skip_space_head c t : json.isSpace c = false → json.skip_space (c :: t) = c :: t.
Proof. intros H. simpl. by rewrite H. Qed.

Lemma skip_space_newline depth s : json.skip_space (json.newline depth ++ s) = json.skip_space s.
Proof.
  unfold json.newline. cbn [app json.skip_space].
  change (json.isSpace c_newline) with true. cbv iota.
  induction depth as [|depth IH]; [done|].
  cbn [replicate concat app json.skip_space].
  change (json.isSpace " ") with true. by cbv iota.
Qed.

(** Unfoldings of [scan_value] by the first character. *)
Lemma scan_value_quote fuel depth t :
  json.scan_value (S fuel) depth (c_quote :: t)
  = '(raw, r) ← json.scan_string t; str ← json.unquote raw; Some (json.JString str, r).
Proof. reflexivity. Qed.

Lemma scan_value_array fuel depth t :
  json.scan_value (S fuel) depth ("["%char :: t)
  = if (json.maxNestingDepth <? S depth)%nat then None
    else match json.skip_space t with
         | c1 :: t1 =>
           if ascii_eqb c1 "]"%char then Some (json.JArray [], t1)
           else '(vs, r) ← json.scan_elems fuel (S depth) (c1 :: t1); Some (json.JArray vs, r)
         | [] => None
         end.
Proof. reflexivity. Qed.

Lemma scan_value_object fuel depth t :
  json.scan_value (S fuel) depth ("{"%char :: t)
  = if (json.maxNestingDepth <? S depth)%nat then None
    else match json.skip_space t with
         | c1 :: t1 =>
           if ascii_eqb c1 "}"%char then Some (json.JObject [], t1)
           else '(ms, r) ← json.scan_members fuel (S depth) (c1 :: t1); Some (json.JObject ms, r)
         | [] => None
         end.
Proof. reflexivity. Qed.

Lemma scan_value_number fuel depth c t :
  c = "-"%char ∨ json.is_digit c = true →
  json.scan_value (S fuel) depth (c :: t)
  = '(lit, r) ← json.scan_number (c :: t); Some (json.JNumber lit, r).
Proof.
  intros [->|H]; [reflexivity|].
  each_byte c; vm_compute in H; try discriminate H; reflexivity.
Qed.

Lemma scan_value_literal fuel depth (b : bool) rest :
  json.scan_value (S fuel) depth (bytes_of (if b then "true" else "false") ++ rest)
  = Some (json.JBool b, rest).
Proof. by destruct b. Qed.

Lemma scan_value_null fuel depth rest :
  json.scan_value (S fuel) depth (bytes_of "null" ++ rest) = Some (json.JNull, rest).
Proof. reflexivity. Qed.

(** *** Texts of arrays and objects *)

Ltac lens := repeat (progress (rewrite ?length_app in *; cbn [length] in *)).

Lemma traverse_Ok {A B} (f : A → result B) (l : list A) (bs : list B) :
  json.traverse f l = Ok bs ↔ Forall2 (λ a b, f a = Ok b) l bs.
Proof.
  revert bs. induction l as [|a l IH]; intros bs; simpl.
  - split; [intros [= <-]; constructor|intros ->%Forall2_nil_inv_l; done].
  - destruct (f a) as [b|e] eqn:E; simpl.
    + destruct (json.traverse f l) as [bs'|e] eqn:E'; simpl.
      * split.
        -- intros [= <-]. constructor; [done|]. by apply IH.
        -- intros (b' & bs'' & Hb & Hbs & ->)%Forall2_cons_inv_l.
           apply IH in Hbs. congruence.
      * split; [done|].
        intros (b' & bs'' & Hb & Hbs & ->)%Forall2_cons_inv_l. apply IH in Hbs. done.
    + split; [done|].
      intros (b' & bs'' & Hb & Hbs & ->)%Forall2_cons_inv_l. congruence.
Qed.

Lemma join_lines_cons d it items :
  json.join_lines d (it :: items)
  = json.newline (S d) ++ it ++ more_lines d items ++ json.newline d.
Proof. done. Qed.

Lemma more_lines_cons d it items :
  more_lines d (it :: items) = ","%char :: json.newline (S d) ++ it ++ more_lines d items.
Proof. unfold more_lines. simpl. by rewrite <- app_assoc. Qed.

Lemma ends_value_more d items rest :
  ends_value (more_lines d items ++ json.newline d ++ rest).
Proof. destruct items; simpl; auto. Qed.

Section scanning.
Context `{Sorter}.

Lemma AppendInt_head n :
  ∃ c t, json.AppendInt n = c :: t ∧ (c = "-"%char ∨ json.is_digit c = true).
Proof.
  unfold json.AppendInt. destruct (Z.ltb_spec n 0).
  - eexists _, _. split; [done|]. by left.
  - destruct (format_uint_spec n) as (d & ds & -> & Hds & _); [done|].
    exists d, ds. split; [done|]. right. by apply Forall_inv in Hds.
Qed.

Lemma object_text_head d members text :
  json.object_text d members = Ok text → ∃ t, text = "{"%char :: t.
Proof.
  unfold json.object_text. destruct (json.traverse _ _); simpl; [|done].
  intros [= <-]. eauto.
Qed.

(** The text of a value starts with a character that opens a value. *)
Lemma encode_head d v text :
  json.encode d v = Ok text → ∃ c t, text = c :: t ∧ value_head c.
Proof.
  destruct v as [s|n|b|[xs|]|[kvs|]|fs| |]; cbn [json.encode]; try done.
  - intros [= <-]. eexists _, _. split; [done|]. by left.
  - intros [= <-]. destruct (AppendInt_head n) as (c & t & -> & Hc).
    exists c, t. split; [done|]. unfold value_head. destruct Hc; auto.
  - intros [= <-]. destruct b; eexists _, _; (split; [done|]); unfold value_head; auto 10.
  - destruct (json.traverse _ _); simpl; [|done]. intros [= <-].
    eexists _, _. split; [done|]. unfold value_head; auto 10.
  - intros [= <-]. eexists _, _. split; [done|]. unfold value_head; auto 10.
  - intros (t & ->)%object_text_head. eexists _, _. split; [done|].
    unfold value_head; auto 10.
  - intros [= <-]. eexists _, _. split; [done|]. unfold value_head; auto 10.
  - intros (t & ->)%object_text_head. eexists _, _. split; [done|].
    unfold value_head; auto 10.
Qed.

Lemma skip_space_text d v text X :
  json.encode d v = Ok text → json.skip_space (text ++ X) = text ++ X.
Proof.
  intros (c & t & -> & Hc)%encode_head. apply skip_space_head.
  by apply value_head_plain in Hc as (? & _).
Qed.

Lemma scan_elems_text d depth x xs it items :
  Forall2 (λ x it, json.encode (S d) x = Ok it) (x :: xs) (it :: items) →
  Forall (elem_ok depth) (x :: xs) →
  ∀ fuel rest,
    (2 * length (it ++ more_lines d items ++ json.newline d) + 1 <= fuel)%nat →
    ∃ js,
      json.scan_elems fuel depth (it ++ more_lines d items ++ json.newline d ++ "]"%char :: rest)
      = Some (js, rest) ∧
      Forall2 denotes (x :: xs) js.
Proof.
  revert x it items. induction xs as [|x' xs IH]; intros x it items Henc Hok fuel rest Hfuel.
  all: apply Forall2_cons in Henc as [Hx Henc].
  all: apply Forall_cons in Hok as [(Hscan & Hvalid & Hheight) Hok].
  all: destruct fuel as [|fuel]; [lia|]; cbn [json.scan_elems].
  - apply Forall2_nil_inv_l in Henc as ->.
    unfold more_lines in *. cbn [map concat app] in *.
    destruct (Hscan (S d) it depth fuel (json.newline d ++ "]"%char :: rest))
      as (j & -> & Hj); [done..| |by right|].
    { rewrite !length_app in Hfuel. lia. }
    cbn [mbind option_bind]. rewrite skip_space_newline. cbn [json.skip_space].
    change (json.isSpace "]") with false. cbv iota.
    change (ascii_eqb "]" ",") with false. change (ascii_eqb "]" "]") with true. cbv iota.
    exists [j]. split; [done|]. by repeat constructor.
  - apply Forall2_cons_inv_l in Henc as (it' & items' & Hx' & Henc & ->).
    rewrite more_lines_cons. cbn [app]. rewrite <- !app_assoc.
    destruct (Hscan (S d) it depth fuel
                (","%char :: json.newline (S d) ++ it' ++ more_lines d items'
                   ++ json.newline d ++ "]"%char :: rest))
      as (j & Hj & Hden); [done..| |by left|].
    { rewrite !length_app in Hfuel. lia. }
    rewrite Hj.
    cbn [mbind option_bind json.skip_space].
    change (json.isSpace ",") with false. cbv iota.
    change (ascii_eqb "," ",") with true. cbv iota.
    rewrite skip_space_newline, (skip_space_text (S d) x') by done.
    destruct (IH x' it' items') with (fuel := fuel) (rest := rest) as (js & Hjs & Hdens).
    { by constructor. }
    { done. }
    { rewrite more_lines_cons in Hfuel. rewrite !length_app in Hfuel |- *.
      cbn [length] in Hfuel. rewrite !length_app in Hfuel. lia. }
    rewrite <- ?app_assoc in Hjs. rewrite Hjs. cbn [mbind option_bind].
    exists (j :: js). split; [done|]. by constructor.
Qed.

Lemma scan_members_text d depth kv kvl it items :
  Forall2 (member_item d) (kv :: kvl) (it :: items) →
  Forall (member_ok depth) (kv :: kvl) →
  ∀ fuel rest,
    (2 * length (it ++ more_lines d items ++ json.newline d) + 1 <= fuel)%nat →
    ∃ ms,
      json.scan_members fuel depth
        (it ++ more_lines d items ++ json.newline d ++ "}"%char :: rest)
      = Some (ms, rest) ∧
      Forall2 (λ kv m, m.1 = kv.1 ∧ denotes kv.2 m.2) (kv :: kvl) ms.
Proof.
  revert kv it items. induction kvl as [|kv' kvl IH];
    intros kv it items Henc Hok fuel rest Hfuel.
  all: apply Forall2_cons in Henc as [(text & Hx & ->) Henc].
  all: apply Forall_cons in Hok as [(Hkey & Hscan & Hvalid & Hheight) Hok].
  all: destruct fuel as [|fuel]; [lia|].
  all: unfold json.member in *.
  all: destruct (scan_quoted kv.1 (":"%char :: " "%char :: text ++ more_lines d items
                                     ++ json.newline d ++ "}"%char :: rest) Hkey)
         as (raw & Hraw & Hss & Hunq).
  all: rewrite Hraw in *; cbn [app] in *; rewrite <- !app_assoc in *; cbn [app] in *.
  all: cbn [json.scan_members].
  all: change (ascii_eqb c_quote c_quote) with true; cbv iota.
  all: rewrite Hss; cbn [mbind option_bind]; rewrite Hunq; cbn [mbind option_bind].
  all: cbn [json.skip_space].
  all: change (json.isSpace ":") with false; cbv iota.
  all: change (ascii_eqb ":" ":") with true; cbv iota.
  all: cbn [json.skip_space]; change (json.isSpace " ") with true; cbv iota.
  - apply Forall2_nil_inv_l in Henc as ->.
    unfold more_lines in *. cbn [map concat app] in *.
    rewrite (skip_space_text (S d) kv.2) by done.
    destruct (Hscan (S d) text depth fuel (json.newline d ++ "}"%char :: rest))
      as (j & -> & Hj); [done..| |by right|].
    { lens. lia. }
    cbn [mbind option_bind]. rewrite skip_space_newline. cbn [json.skip_space].
    change (json.isSpace "}") with false. cbv iota.
    change (ascii_eqb "}" ",") with false. change (ascii_eqb "}" "}") with true. cbv iota.
    exists [(kv.1, j)]. split; [done|]. by repeat constructor.
  - apply Forall2_cons_inv_l in Henc as (it' & items' & Hx' & Henc & ->).
    rewrite more_lines_cons in *. cbn [app] in *. rewrite <- !app_assoc in *.
    rewrite (skip_space_text (S d) kv.2) by done.
    destruct (Hscan (S d) text depth fuel
                (","%char :: json.newline (S d) ++ it' ++ more_lines d items'
                   ++ json.newline d ++ "}"%char :: rest))
      as (j & Hj & Hden); [done..| |by left|].
    { lens. lia. }
    rewrite Hj.
    cbn [mbind option_bind json.skip_space].
    change (json.isSpace ",") with false. cbv iota.
    change (ascii_eqb "," ",") with true. cbv iota.
    rewrite skip_space_newline.
    assert (json.skip_space (it' ++ more_lines d items' ++ json.newline d ++ "}"%char :: rest)
            = it' ++ more_lines d items' ++ json.newline d ++ "}"%char :: rest) as ->.
    { destruct Hx' as (text' & _ & ->). unfold json.member, json.appendString.
      cbn [app]. by apply skip_space_head. }
    destruct (IH kv' it' items') with (fuel := fuel) (rest := rest) as (ms & Hms & Hdens).
    { by constructor. }
    { done. }
    { lens. lia. }
    rewrite <- ?app_assoc in Hms. rewrite Hms. cbn [mbind option_bind].
    exists ((kv.1, j) :: ms). split; [done|]. by constructor.
Qed.

Lemma nesting_open depth h :
  (depth + S h <= json.maxNestingDepth)%nat → (json.maxNestingDepth <? S depth)%nat = false.
Proof. intros Hh. apply Nat.ltb_ge. lia. Qed.

Lemma members_items d kvl items :
  json.traverse json.member_of (members_of d kvl) = Ok items →
  Forall2 (member_item d) kvl items.
Proof.
  intros Ht%traverse_Ok. unfold members_of in Ht. apply Forall2_fmap_l in Ht.
  eapply Forall2_impl; [exact Ht|]. intros kv it. unfold json.member_of. simpl.
  destruct (json.encode (S d) kv.2) as [text|e] eqn:E; simpl; [|done].
  intros [= <-]. by exists text.
Qed.

Lemma scan_object d depth kvl text fuel rest :
  json.object_text d (members_of d kvl) = Ok text →
  Forall (member_ok (S depth)) kvl →
  (S depth <= json.maxNestingDepth)%nat →
  (2 * length text <= fuel)%nat →
  ∃ ms,
    json.scan_value fuel depth (text ++ rest) = Some (json.JObject ms, rest) ∧
    Forall2 (λ kv m, m.1 = kv.1 ∧ denotes kv.2 m.2) kvl ms.
Proof.
  unfold json.object_text. intros Ht Hok Hdepth Hfuel.
  destruct (json.traverse json.member_of (members_of d kvl)) as [items|e] eqn:E; [|done].
  simpl in Ht. injection Ht as <-. apply members_items in E.
  destruct fuel as [|fuel]; [simpl in Hfuel; lia|].
  cbn [app]. rewrite scan_value_object.
  assert ((json.maxNestingDepth <? S depth)%nat = false) as -> by (apply Nat.ltb_ge; lia).
  destruct E as [|kv it kvl items Hit E].
  - cbn [json.join_lines app json.skip_space].
    change (json.isSpace "}") with false. cbv iota.
    change (ascii_eqb "}" "}") with true. cbv iota.
    exists []. split; [done|constructor].
  - rewrite join_lines_cons in *. rewrite <- !app_assoc. rewrite skip_space_newline.
    assert (∃ c1 t1, it = c1 :: t1 ∧ json.isSpace c1 = false ∧ ascii_eqb c1 "}"%char = false)
      as (c1 & t1 & Eit & Hsp & Hcl).
    { destruct Hit as (text' & _ & ->). unfold json.member, json.appendString.
      by eexists _, _. }
    destruct (scan_members_text d (S depth) kv kvl it items) with (fuel := fuel) (rest := rest)
      as (ms & Hms & Hden); [by constructor|done| |].
    { lens. lia. }
    rewrite Eit in *. cbn [app] in *. cbn [json.skip_space]. rewrite Hsp, Hcl.
    cbn [app] in Hms. rewrite Hms. cbn [mbind option_bind].
    exists ms. done.
Qed.

Lemma struct_members d fs :
  map (λ f : string * bool * result (list ascii), (f.1.1, f.2))
      (List.filter (λ f : string * bool * result (list ascii), negb f.1.2)
         (map (λ f : string * bool * json.GoValue,
                 (f.1.1, f.1.2 && json.isEmptyValue f.2, json.encode (S d) f.2)) fs))
  = members_of d (map (λ f : string * bool * json.GoValue, (f.1.1, f.2))
                      (List.filter (λ f, negb (omitted f)) fs)).
Proof.
  induction fs as [|f fs IH]; [done|]. cbn [map List.filter]. unfold omitted at 1.
  destruct (f.1.2 && json.isEmptyValue f.2); simpl; by rewrite IH.
Qed.

Lemma list_max_elem (l : list nat) (n : nat) : n ∈ l → (n <= list_max l)%nat.
Proof.
  induction 1 as [n l|n m l _ IH]; simpl; lia.
Qed.

(** The scanner reads back the text of any value made of valid strings
    that does not nest deeper than the scanner allows. *)
Lemma scan_encode (v : json.GoValue) : scan_ok v.
Proof.
  induction v as [s|n|b| |xs IH| |kvs IH|fs IH| |] using GoValue_nested_ind;
    intros d text depth fuel rest Henc Hvalid Hdepth Hfuel Hrest.
  - (* string *)
    cbn [json.encode valid_strings] in *. injection Henc as <-.
    destruct (scan_quoted s rest Hvalid) as (raw & Hraw & Hss & Hunq).
    rewrite Hraw in *. cbn [app]. rewrite <- app_assoc. cbn [app].
    destruct fuel as [|fuel]; [simpl in Hfuel; lia|].
    rewrite scan_value_quote, Hss. cbn [mbind option_bind]. rewrite Hunq.
    eexists. split; [done|constructor].
  - (* integer *)
    cbn [json.encode] in Henc. injection Henc as <-.
    pose proof (scan_number_AppendInt n rest (ends_value_number _ Hrest)) as Hnum.
    destruct (AppendInt_head n) as (c & t & E & Hc).
    rewrite E in *. cbn [app] in *.
    destruct fuel as [|fuel]; [simpl in Hfuel; lia|].
    rewrite scan_value_number, Hnum by done.
    eexists. split; [done|]. rewrite <- E. constructor.
  - (* boolean *)
    cbn [json.encode] in Henc. injection Henc as <-.
    destruct fuel as [|fuel]; [destruct b; simpl in Hfuel; lia|].
    rewrite scan_value_literal. eexists. split; [done|constructor].
  - (* nil slice *)
    cbn [json.encode] in Henc. injection Henc as <-.
    destruct fuel as [|fuel]; [simpl in Hfuel; lia|].
    rewrite scan_value_null. eexists. split; [done|constructor].
  - (* slice *)
    cbn [json.encode] in Henc.
    destruct (json.traverse _ _) as [items|e] eqn:E; [|done].
    simpl in Henc. injection Henc as <-.
    apply traverse_Ok, Forall2_fmap_l in E.
    destruct fuel as [|fuel]; [simpl in Hfuel; lia|].
    cbn [app]. rewrite scan_value_array.
    cbn [height] in Hdepth. rewrite (nesting_open _ _ Hdepth).
    cbn [valid_strings] in Hvalid.
    destruct E as [|x it xs items Hit E].
    + cbn [json.join_lines app json.skip_space].
      change (json.isSpace "]") with false. cbv iota.
      change (ascii_eqb "]" "]") with true. cbv iota.
      eexists. split; [done|]. by repeat constructor.
    + rewrite join_lines_cons in *. rewrite <- !app_assoc. rewrite skip_space_newline.
      destruct (encode_head _ _ _ Hit) as (c1 & t1 & Eit & Hhead).
      apply value_head_plain in Hhead as (Hsp & Hcl & _).
      destruct (scan_elems_text d (S depth) x xs it items) with (fuel := fuel) (rest := rest)
        as (js & Hjs & Hden); [by constructor| | |].
      { apply Forall_forall. intros y Hy. split_and!.
        - rewrite Forall_forall in IH. by apply IH.
        - rewrite forallb_forall in Hvalid. by apply Hvalid, list_elem_of_In.
        - assert (height y <= list_max (map height (x :: xs)))%nat
            by (by apply list_max_elem, list_elem_of_fmap_2).
          lia. }
      { lens. lia. }
      rewrite Eit in *. cbn [app] in *. cbn [json.skip_space]. rewrite Hsp, Hcl.
      rewrite Hjs. cbn [mbind option_bind].
      eexists. split; [done|]. by constructor.
  - (* nil map *)
    cbn [json.encode] in Henc. injection Henc as <-.
    destruct fuel as [|fuel]; [simpl in Hfuel; lia|].
    rewrite scan_value_null. eexists. split; [done|constructor].
  - (* map *)
    cbn [json.encode] in Henc. cbn [height] in Hdepth. cbn [valid_strings] in Hvalid.
    change (map _ kvs) with (members_of d kvs) in Henc.
    pose proof (sort_by_perm _ json.key_less (members_of d kvs)) as Hp.
    apply Permutation_map_inv in Hp as (kvs' & Hsorted & Hperm).
    rewrite Hsorted in Henc. change (map _ kvs') with (members_of d kvs') in Henc.
    destruct (scan_object d depth kvs' text fuel rest) as (ms & Hms & Hden); [done| |lia|done|].
    { rewrite <- Hperm. apply Forall_forall. intros kv Hkv.
      rewrite forallb_forall in Hvalid.
      pose proof (Hvalid kv (proj1 (list_elem_of_In _ _) Hkv)) as [Hk Hv]%andb_true_iff.
      split; [done|]. split_and!.
      - rewrite Forall_forall in IH. by apply IH.
      - done.
      - assert (height kv.2 <= list_max (map (λ kv, height kv.2) kvs))%nat
          by (by apply list_max_elem, (list_elem_of_fmap_2 (λ kv, height kv.2))).
        lia. }
    eexists. split; [exact Hms|]. by apply (den_map kvs kvs'); [symmetry|].
  - (* struct *)
    cbn [json.encode] in Henc. cbn [height] in Hdepth. cbn [valid_strings] in Hvalid.
    rewrite struct_members in Henc.
    destruct (scan_object d depth _ text fuel rest Henc) as (ms & Hms & Hden); [|lia|done|].
    { apply Forall_fmap, Forall_forall. intros f Hf.
      apply list_elem_of_In, filter_In in Hf as [Hf _]. apply list_elem_of_In in Hf.
      rewrite forallb_forall in Hvalid.
      pose proof (Hvalid f (proj1 (list_elem_of_In _ _) Hf)) as [Hk Hv]%andb_true_iff.
      split; [done|]. split_and!.
      - rewrite Forall_forall in IH. by apply IH.
      - done.
      - assert (height f.2 <= list_max (map (λ f, height f.2) fs))%nat
          by (by apply list_max_elem, (list_elem_of_fmap_2 (λ f, height f.2))).
        simpl. lia. }
    eexists. split; [exact Hms|]. apply den_struct. by apply Forall2_fmap_l in Hden.
  - done.
  - done.
Qed.
End scanning.

(** ** Values the encoder accepts *)

Lemma Forall_exists_Forall2 {A B} (R : A → B → Prop) (l : list A) :
  Forall (λ a, ∃ b, R a b) l → ∃ bs, Forall2 R l bs.
Proof.
  induction 1 as [|a l [b Hb] _ [bs Hbs]]; [by exists []|].
  exists (b :: bs). by constructor.
Qed.

Section encoding.
Context `{Sorter}.

Lemma object_text_Ok d (members : list (string * result (list ascii))) :
  Forall (λ m, ∃ text, m.2 = Ok text) members →
  ∃ text, json.object_text d members = Ok text.
Proof.
  intros Hm. unfold json.object_text.
  destruct (Forall_exists_Forall2 (λ m it, json.member_of m = Ok it) members) as [items Hit].
  { eapply Forall_impl; [exact Hm|]. intros m [text Ht]. unfold json.member_of.
    rewrite Ht. simpl. eauto. }
  apply traverse_Ok in Hit. rewrite Hit. simpl. eauto.
Qed.

(** The encoder returns a text, and no error, for every such value. *)
Lemma encode_encodable (v : json.GoValue) (d : nat) :
  encodable v = true → ∃ text, json.encode d v = Ok text.
Proof.
  revert d. induction v as [s|n|b| |xs IH| |kvs IH|fs IH| |] using GoValue_nested_ind;
    intros d Hv; cbn [json.encode encodable] in *; eauto; try done.
  - destruct (Forall_exists_Forall2 (λ r it, r = Ok it) (map (json.encode (S d)) xs))
      as [items Hit].
    { apply Forall_fmap, Forall_forall. intros x Hx. simpl.
      rewrite Forall_forall in IH. rewrite forallb_forall in Hv.
      apply IH; [done|]. by apply Hv, list_elem_of_In. }
    apply (traverse_Ok (λ r, r)) in Hit. rewrite Hit. simpl. eauto.
  - apply object_text_Ok. rewrite (sort_by_perm _ json.key_less).
    apply Forall_fmap, Forall_forall. intros kv Hkv. simpl.
    rewrite Forall_forall in IH. rewrite forallb_forall in Hv.
    apply IH; [done|]. by apply Hv, list_elem_of_In.
  - rewrite struct_members. apply object_text_Ok.
    unfold members_of. apply Forall_fmap, Forall_fmap, Forall_forall. intros f Hf. simpl.
    apply list_elem_of_In, filter_In in Hf as [Hf _]. apply list_elem_of_In in Hf.
    rewrite Forall_forall in IH. rewrite forallb_forall in Hv.
    apply IH; [done|]. by apply Hv, list_elem_of_In.
Qed.

Lemma encodable_Topic ord site t : encodable (reflect_Topic ord site t) = true.
Proof.
  unfold reflect_Topic. cbn [encodable forallb fst snd andb].
  destruct (Configs t) as [m|]; [|done]. cbn [fmap option_fmap option_map encodable].
  rewrite andb_true_r. apply forallb_forall. by intros kv (kv' & <- & _)%in_map_iff.
Qed.

Lemma encodable_ExportFile ord site f : encodable (reflect_ExportFile ord site f) = true.
Proof.
  unfold reflect_ExportFile. cbn [encodable forallb fst snd andb].
  destruct (Topics f) as [ts|]; [|done]. cbn [fmap option_fmap option_map encodable].
  rewrite andb_true_r. apply forallb_forall. intros v Hv.
  apply list_elem_of_In, list_elem_of_lookup in Hv as [i Hi].
  rewrite list_lookup_imap in Hi. destruct (ts !! i); [|done].
  injection Hi as <-. apply encodable_Topic.
Qed.

(** C10. Serializing a snapshot document never fails: for every document
    [json.MarshalIndent] returns bytes and a nil error, so the error that
    export drops is always nil. *)
Theorem marshal_ExportFile_never_fails (ord : RangeOrder) (site : nat) (f : ExportFile) :
  err_of (json.MarshalIndent (reflect_ExportFile ord site f)) = None.
Proof.
  unfold json.MarshalIndent.
  destruct (encode_encodable (reflect_ExportFile ord site f) 0) as [text ->]; [|done].
  apply encodable_ExportFile.
Qed.
End encoding.

(** ** Decoding what the scanner read *)

Section decoding.
Context `{Unicode}.

Lemma find_Topic_field :
  find_field Topic_fields "name" = Some 0%nat ∧
  find_field Topic_fields "partitions" = Some 1%nat ∧
  find_field Topic_fields "replication_factor" = Some 2%nat ∧
  find_field Topic_fields "configs" = Some 3%nat.
Proof. repeat split; reflexivity. Qed.

Lemma find_ExportFile_field :
  find_field ExportFile_fields "kafka_version" = Some 0%nat ∧
  find_field ExportFile_fields "export_time" = Some 1%nat ∧
  find_field ExportFile_fields "topics" = Some 2%nat.
Proof. repeat split; reflexivity. Qed.

Lemma decode_int_AppendInt bits cur n :
  (bits = 16 ∨ bits = 32) → in_int bits n = true →
  decode_int bits cur (json.JNumber (json.AppendInt n)) = Ok n.
Proof.
  intros Hbits Hn. unfold decode_int, in_int in *.
  rewrite ParseInt_AppendInt.
  - by rewrite Hn.
  - apply andb_true_iff in Hn as [H1%Z.leb_le H2%Z.ltb_lt].
    destruct Hbits as [-> | ->]; simpl in *; lia.
Qed.

Lemma decode_string_of_denoted s j cur :
  denotes (json.GoString s) j → decode_string cur j = Ok s.
Proof. by inversion 1. Qed.

Lemma decode_int_of_denoted bits cur n j :
  (bits = 16 ∨ bits = 32) → in_int bits n = true →
  denotes (json.GoInt n) j → decode_int bits cur j = Ok n.
Proof. intros Hb Hn. inversion 1. by apply decode_int_AppendInt. Qed.

(** The members of a map of strings, decoded into a map. *)
Lemma decode_members_fold (l : list (string * string)) (acc : gmap string string) :
  NoDup l.*1 →
  foldl_result (λ (m : gmap string string) (kv : string * json.jvalue),
                  v ←r decode_string "" kv.2; Ok (<[kv.1 := v]> m))
               acc (map (λ kv : string * string, (kv.1, json.JString kv.2)) l)
  = Ok ((list_to_map l : gmap string string) ∪ acc).
Proof.
  revert acc. induction l as [|[k v] l IH]; intros acc Hnd; simpl.
  { by rewrite (left_id_L ∅ (∪)). }
  apply NoDup_cons in Hnd as [Hk Hnd]. rewrite IH by done. f_equal.
  rewrite <- insert_union_l. rewrite <- insert_union_r; [done|].
  by apply not_elem_of_list_to_map_1.
Qed.

Lemma decode_Configs_of_denoted (l : list (string * string)) j :
  NoDup l.*1 →
  denotes (json.GoMap (Some (string_entries l))) j →
  decode_Configs None j = Ok (Some (list_to_map l)).
Proof.
  intros Hnd Hj. inversion Hj as [| | | | | |kvs kvs' ms Hperm Hms|]; subst.
  unfold string_entries in Hperm.
  apply Permutation_map_inv in Hperm as (l' & -> & Hperm).
  assert (ms = map (λ kv : string * string, (kv.1, json.JString kv.2)) l') as ->.
  { clear -Hms. revert ms Hms. induction l' as [|kv l' IH]; intros ms Hms.
    - by apply Forall2_nil_inv_l in Hms as ->.
    - apply Forall2_cons_inv_l in Hms as ([k j] & ms' & [Hk Hd] & Hms & ->).
      simpl in *. inversion Hd; subst. f_equal. by apply IH. }
  unfold decode_Configs. simpl gomap_entries.
  rewrite decode_members_fold by (by rewrite <- Hperm).
  simpl. rewrite (right_id_L ∅ (∪)). do 2 f_equal.
  apply list_to_map_proper; [by rewrite <- Hperm|done].
Qed.

Lemma range_entries_empty ord site (m : gmap string string) :
  (length (string_entries (range_of ord site m)) =? 0)%nat = bool_decide (m = ∅).
Proof.
  unfold string_entries. rewrite length_map, (range_of_perm ord).
  destruct (decide (m = ∅)) as [->|Hne].
  - by rewrite map_to_list_empty.
  - rewrite bool_decide_eq_false_2 by done. apply Nat.eqb_neq.
    intros Hl%nil_length_inv. by apply map_to_list_empty_iff in Hl.
Qed.

Lemma range_entries_map ord site (m : gmap string string) :
  list_to_map (range_of ord site m) = m.
Proof.
  rewrite <- (list_to_map_to_list m) at 2. apply list_to_map_proper.
  - rewrite (range_of_perm ord). apply NoDup_fst_map_to_list.
  - apply range_of_perm.
Qed.

Lemma decode_Topic_of_denoted ord site (t : Topic) j :
  wf_Topic t = true →
  denotes (reflect_Topic ord site t) j →
  decode_Topic zero_Topic j = Ok (read_back_Topic t).
Proof.
  intros Hwf Hj. unfold wf_Topic in Hwf.
  apply andb_true_iff in Hwf as [Hwf _].
  apply andb_true_iff in Hwf as [Hwf Hrf].
  apply andb_true_iff in Hwf as [_ Hp].
  destruct find_Topic_field as (F0 & F1 & F2 & F3).
  inversion Hj as [| | | | | | |fs ms Hms]; subst. clear Hj.
  cbn [List.filter omitted fst snd andb negb json.isEmptyValue] in Hms.
  apply Forall2_cons_inv_l in Hms as ([k0 j0] & ms0 & [Hk0 Hd0] & Hms & ->).
  apply Forall2_cons_inv_l in Hms as ([k1 j1] & ms1 & [Hk1 Hd1] & Hms & ->).
  apply Forall2_cons_inv_l in Hms as ([k2 j2] & ms2 & [Hk2 Hd2] & Hms & ->).
  simpl in Hk0, Hk1, Hk2, Hd0, Hd1, Hd2. subst k0 k1 k2.
  unfold decode_Topic. cbn [foldl_result].
  unfold decode_Topic_member at 1. cbn [fst snd]. rewrite F0.
  rewrite (decode_string_of_denoted (Name t)) by done. cbn [rbind].
  unfold decode_Topic_member at 1. cbn [fst snd Name Partitions ReplicationFactor Configs].
  rewrite F1. rewrite (decode_int_of_denoted 32 _ (Partitions t)) by auto. cbn [rbind].
  unfold decode_Topic_member at 1. cbn [fst snd Name Partitions ReplicationFactor Configs].
  rewrite F2. rewrite (decode_int_of_denoted 16 _ (ReplicationFactor t)) by auto. cbn [rbind].
  unfold read_back_Topic.
  destruct (Configs t) as [m|] eqn:Em; cbn [fmap option_fmap option_map default] in Hms;
    cbn [gomap_entries default].
  - change (map _ (range_of ord site m)) with (string_entries (range_of ord site m)) in Hms.
    unfold id in Hms. rewrite range_entries_empty in Hms.
    destruct (decide (m = ∅)) as [->|Hne].
    + rewrite bool_decide_eq_true_2 in Hms by done. simpl in Hms.
      apply Forall2_nil_inv_l in Hms as ->. done.
    + rewrite bool_decide_eq_false_2 in Hms by done. simpl in Hms.
      apply Forall2_cons_inv_l in Hms as ([k3 j3] & ms3 & [Hk3 Hd3] & Hms & ->).
      apply Forall2_nil_inv_l in Hms as ->. simpl in Hk3, Hd3. subst k3.
      cbn [foldl_result].
      unfold decode_Topic_member at 1. cbn [fst snd Name Partitions ReplicationFactor Configs].
      rewrite F3.
      rewrite (decode_Configs_of_denoted (range_of ord site m)); [|..|done].
      * cbn [rbind]. rewrite range_entries_map. by rewrite decide_False.
      * rewrite (range_of_perm ord). apply NoDup_fst_map_to_list.
  - simpl in Hms. apply Forall2_nil_inv_l in Hms as ->.
    by rewrite decide_True.
Qed.

Lemma decode_elems_of_denoted ord site (ts : list Topic) js :
  forallb wf_Topic ts = true →
  Forall2 denotes (imap (λ i t, reflect_Topic ord (site + i) t) ts) js →
  decode_elems [] js = Ok (map read_back_Topic ts).
Proof.
  revert site js. induction ts as [|t ts IH]; intros site js Hwf Hjs.
  { by apply Forall2_nil_inv_l in Hjs as ->. }
  cbn [forallb] in Hwf. apply andb_true_iff in Hwf as [Ht Hwf].
  rewrite imap_cons in Hjs.
  apply Forall2_cons_inv_l in Hjs as (j & js' & Hj & Hjs & ->).
  cbn [decode_elems hd tl map].
  rewrite (decode_Topic_of_denoted ord (site + 0) t) by done. cbn [rbind].
  rewrite (IH (S site)); [done|done|].
  erewrite imap_ext; [exact Hjs|]. intros i x _. simpl. f_equal. lia.
Qed.

Lemma decode_ExportFile_of_denoted ord site (f : ExportFile) j :
  wf_ExportFile f = true →
  denotes (reflect_ExportFile ord site f) j →
  decode_ExportFile zero_ExportFile j = Ok (read_back f).
Proof.
  intros Hwf Hj. unfold wf_ExportFile in Hwf.
  apply andb_true_iff in Hwf as [_ Hts].
  destruct find_ExportFile_field as (F0 & F1 & F2).
  inversion Hj as [| | | | | | |fs ms Hms]; subst. clear Hj.
  cbn [List.filter omitted fst snd andb negb json.isEmptyValue] in Hms.
  apply Forall2_cons_inv_l in Hms as ([k0 j0] & ms0 & [Hk0 Hd0] & Hms & ->).
  apply Forall2_cons_inv_l in Hms as ([k1 j1] & ms1 & [Hk1 Hd1] & Hms & ->).
  apply Forall2_cons_inv_l in Hms as ([k2 j2] & ms2 & [Hk2 Hd2] & Hms & ->).
  apply Forall2_nil_inv_l in Hms as ->.
  simpl in Hk0, Hk1, Hk2, Hd0, Hd1, Hd2. subst k0 k1 k2.
  unfold decode_ExportFile. cbn [foldl_result].
  unfold decode_ExportFile_member at 1. cbn [fst snd]. rewrite F0.
  rewrite (decode_string_of_denoted (KafkaVersion f)) by done. cbn [rbind].
  unfold decode_ExportFile_member at 1. cbn [fst snd KafkaVersion ExportTime Topics].
  rewrite F1. rewrite (decode_string_of_denoted (ExportTime f)) by done. cbn [rbind].
  unfold decode_ExportFile_member at 1. cbn [fst snd KafkaVersion ExportTime Topics].
  rewrite F2. unfold read_back.
  destruct (Topics f) as [ts|]; cbn [fmap option_fmap option_map] in Hd2.
  - inversion Hd2 as [| | | |xs js Hjs| | |]; subst.
    unfold decode_Topics. cbn [slice_elems default zero_ExportFile Topics].
    rewrite (decode_elems_of_denoted ord site ts) by done. done.
  - inversion Hd2; subst. done.
Qed.
End decoding.

(** ** The codec of the snapshot document *)

Lemma valid_strings_entries ord site (m : gmap string string) :
  valid_entries m = true →
  forallb (λ kv : string * json.GoValue, utf8.ValidString kv.1 && valid_strings kv.2)
          (string_entries (range_of ord site m)) = true.
Proof.
  unfold valid_entries, string_entries. rewrite !forallb_forall.
  intros Hm kv (kv' & <- & Hin)%in_map_iff. simpl. apply Hm.
  apply list_elem_of_In. rewrite <- (range_of_perm ord _ site). by apply list_elem_of_In.
Qed.

Lemma valid_strings_Topic ord site t :
  wf_Topic t = true → valid_strings (reflect_Topic ord site t) = true.
Proof.
  unfold wf_Topic. intros Hwf.
  apply andb_true_iff in Hwf as [Hwf Hcfg].
  apply andb_true_iff in Hwf as [Hwf _].
  apply andb_true_iff in Hwf as [Hname _].
  unfold reflect_Topic. cbn [valid_strings forallb fst snd].
  rewrite Hname.
  change (utf8.ValidString "name") with true.
  change (utf8.ValidString "partitions") with true.
  change (utf8.ValidString "replication_factor") with true.
  change (utf8.ValidString "configs") with true.
  cbn [andb]. rewrite andb_true_r.
  destruct (Configs t) as [m|]; [|done].
  cbn [fmap option_fmap option_map valid_strings]. by apply valid_strings_entries.
Qed.

Lemma valid_strings_ExportFile ord site f :
  wf_ExportFile f = true → valid_strings (reflect_ExportFile ord site f) = true.
Proof.
  unfold wf_ExportFile. intros Hwf.
  apply andb_true_iff in Hwf as [Hwf Hts].
  apply andb_true_iff in Hwf as [Hkv Het].
  unfold reflect_ExportFile. cbn [valid_strings forallb fst snd].
  rewrite Hkv, Het.
  change (utf8.ValidString "kafka_version") with true.
  change (utf8.ValidString "export_time") with true.
  change (utf8.ValidString "topics") with true.
  cbn [andb]. rewrite andb_true_r.
  destruct (Topics f) as [ts|]; [|done].
  cbn [fmap option_fmap option_map valid_strings slice_elems default] in *.
  apply forallb_forall. intros v Hv.
  apply list_elem_of_In, list_elem_of_lookup in Hv as [i Hi].
  rewrite list_lookup_imap in Hi. destruct (ts !! i) as [t|] eqn:Et; [|done].
  injection Hi as <-. apply valid_strings_Topic.
  rewrite forallb_forall in Hts. apply Hts, list_elem_of_In.
  by apply list_elem_of_lookup_2 in Et.
Qed.

Lemma height_Topic ord site t : (height (reflect_Topic ord site t) <= 2)%nat.
Proof.
  unfold reflect_Topic. cbn [height map fst snd list_max foldr].
  destruct (Configs t) as [m|]; cbn [fmap option_fmap option_map height]; [|lia].
  assert (list_max (map (λ kv : string * json.GoValue, height kv.2)
                        (string_entries (range_of ord site m))) = 0%nat) as E.
  { apply Nat.le_0_r, list_max_le, Forall_forall.
    intros n (kv & -> & (kv' & -> & _)%list_elem_of_fmap)%list_elem_of_fmap. done. }
  unfold string_entries in E. rewrite E. simpl. lia.
Qed.

Lemma height_ExportFile ord site f : (height (reflect_ExportFile ord site f) <= 4)%nat.
Proof.
  unfold reflect_ExportFile. cbn [height map fst snd list_max foldr].
  destruct (Topics f) as [ts|]; cbn [fmap option_fmap option_map height]; [|lia].
  assert (list_max (map height (imap (λ i t, reflect_Topic ord (site + i) t) ts)) <= 2)%nat as E.
  { apply list_max_le, Forall_forall.
    intros n (v & -> & Hv)%list_elem_of_fmap.
    apply list_elem_of_lookup in Hv as [i Hi].
    rewrite list_lookup_imap in Hi. destruct (ts !! i) as [t|]; [|done].
    injection Hi as <-. apply height_Topic. }
  lia.
Qed.

Lemma nesting_fits : (4 <= json.maxNestingDepth)%nat.
Proof. apply Nat.leb_le. by vm_compute. Qed.

(** C7, amended. A snapshot document whose strings are valid UTF-8 (and
    whose numbers have the width of their fields) is serialized without
    error, and deserializing the bytes gives the document back: the same
    kafka_version, export_time and topics in the same order, each with
    its name, partition count, replication factor and configs; a topic
    without config entries comes back with a nil configs map. *)
Theorem codec_roundtrip `{Sorter} `{Unicode} (ord : RangeOrder) (site : nat) (f : ExportFile) :
  wf_ExportFile f = true →
  ∃ data, json.MarshalIndent (reflect_ExportFile ord site f) = Ok data ∧
          Unmarshal data zero_ExportFile = Ok (read_back f).
Proof.
  intros Hwf. unfold json.MarshalIndent.
  destruct (encode_encodable (reflect_ExportFile ord site f) 0%nat) as [text Ht];
    [apply encodable_ExportFile|].
  rewrite Ht. exists (string_of text). split; [done|].
  unfold Unmarshal, json.scan. rewrite bytes_of_string_of.
  rewrite <- (app_nil_r text) at 1 2.
  rewrite (skip_space_text 0%nat _ text []) by done. rewrite app_nil_r.
  destruct (scan_encode (reflect_ExportFile ord site f) 0%nat text 0%nat (2 * length text)%nat [])
    as (j & Hj & Hden); [done|by apply valid_strings_ExportFile| |done|done|].
  { pose proof (height_ExportFile ord site f). pose proof nesting_fits. lia. }
  rewrite app_nil_r in Hj. rewrite Hj. cbn [mbind option_bind json.skip_space].
  by apply (decode_ExportFile_of_denoted ord site).
Qed.

(** ** The bytes of an export do not depend on the order of map walks *)

Section stable_bytes.
Context `{Sorter}.

Lemma encode_struct_ext d (fs1 fs2 : list (string * bool * json.GoValue)) :
  Forall2 (λ f1 f2, f1.1 = f2.1 ∧ json.isEmptyValue f1.2 = json.isEmptyValue f2.2 ∧
                    ∀ d, json.encode d f1.2 = json.encode d f2.2) fs1 fs2 →
  json.encode d (json.GoStruct fs1) = json.encode d (json.GoStruct fs2).
Proof.
  intros Hfs. cbn [json.encode]. do 3 f_equal.
  induction Hfs as [|f1 f2 fs1 fs2 (E1 & E2 & E3) _ IH]; [done|].
  cbn [map]. by rewrite E1, E2, E3, IH.
Qed.

Lemma encode_slice_ext d (xs1 xs2 : list json.GoValue) :
  Forall2 (λ x1 x2, ∀ d, json.encode d x1 = json.encode d x2) xs1 xs2 →
  json.encode d (json.GoSlice (Some xs1)) = json.encode d (json.GoSlice (Some xs2)).
Proof.
  intros Hxs. cbn [json.encode]. do 2 f_equal.
  induction Hxs as [|x1 x2 xs1 xs2 E _ IH]; [done|].
  cbn [map]. by rewrite E, IH.
Qed.

(** A map is written in key order, whatever order its entries came in. *)
Lemma encode_map_order d (l1 l2 : list (string * string)) :
  l1 ≡ₚ l2 → NoDup l1.*1 →
  json.encode d (json.GoMap (Some (string_entries l1)))
  = json.encode d (json.GoMap (Some (string_entries l2))).
Proof.
  intros Hp Hnd. cbn [json.encode]. f_equal.
  apply (sorted_by_key_unique fst).
  - rewrite (sort_by_perm _ json.key_less).
    assert (∀ g : json.GoValue → result (list ascii),
              fst <$> map (λ kv : string * json.GoValue, (kv.1, g kv.2)) (string_entries l1)
              = l1.*1) as ->; [|done].
    intros g. clear. induction l1 as [|kv l1 IH]; [done|]. simpl. by f_equal.
  - apply (sort_by_sorted _ json.key_less), key_less_StrictWeak.
  - apply (sort_by_sorted _ json.key_less), key_less_StrictWeak.
  - rewrite !(sort_by_perm _ json.key_less). unfold string_entries.
    by do 2 apply Permutation_map.
Qed.

Lemma encode_Topic_order d ord1 site1 ord2 site2 (t : Topic) :
  json.encode d (reflect_Topic ord1 site1 t) = json.encode d (reflect_Topic ord2 site2 t).
Proof.
  apply encode_struct_ext. repeat constructor; simpl.
  - destruct (Configs t) as [m|]; [|done]. simpl.
    by rewrite !length_map, !(range_of_perm _).
  - intros d'. destruct (Configs t) as [m|]; [|done].
    apply (encode_map_order d' (range_of ord1 site1 m) (range_of ord2 site2 m)).
    + by rewrite !(range_of_perm _).
    + rewrite (range_of_perm ord1). apply NoDup_fst_map_to_list.
Qed.

Lemma encode_Topics_order d ord1 site1 ord2 site2 (ts : slice Topic) :
  json.encode d (json.GoSlice (imap (λ i t, reflect_Topic ord1 (site1 + i) t) <$> ts))
  = json.encode d (json.GoSlice (imap (λ i t, reflect_Topic ord2 (site2 + i) t) <$> ts)).
Proof.
  destruct ts as [ts|]; [|done]. apply encode_slice_ext.
  revert site1 site2. induction ts as [|t ts IH]; intros site1 site2; [constructor|].
  rewrite !imap_cons. constructor.
  - intros d'. apply encode_Topic_order.
  - rewrite (imap_ext _ (λ i t, reflect_Topic ord1 (S site1 + i) t))
      by (intros; simpl; f_equal; lia).
    rewrite (imap_ext (_ ∘ S) (λ i t, reflect_Topic ord2 (S site2 + i) t))
      by (intros; simpl; f_equal; lia).
    apply IH.
Qed.

Lemma encode_ExportFile_order d ord1 site1 ord2 site2 (f : ExportFile) :
  json.encode d (reflect_ExportFile ord1 site1 f)
  = json.encode d (reflect_ExportFile ord2 site2 f).
Proof.
  apply encode_struct_ext. repeat constructor; simpl.
  - by destruct (Topics f) as [ts|]; simpl; rewrite ?length_imap.
  - intros d'. apply encode_Topics_order.
Qed.

(** C8. Two exports of one cluster state write the same bytes for the
    topics sequence, whatever order the runtime walks the maps in and
    whenever the exports run; run at the same time stamp, they write the
    same file byte for byte. *)
Theorem export_bytes_stable (ord1 ord2 : RangeOrder) (excludeInternal : bool)
    (topics : gmap string TopicDetail) :
  (∀ now1 now2 site1 site2,
     topics_text ord1 site1 (export_file ord1 excludeInternal now1 topics)
     = topics_text ord2 site2 (export_file ord2 excludeInternal now2 topics)) ∧
  (∀ now, export_data ord1 excludeInternal now topics
          = export_data ord2 excludeInternal now topics).
Proof.
  split.
  - intros now1 now2 site1 site2. unfold topics_text.
    rewrite (export_topics_order_irrelevant ord1 ord2 _ now1 now2).
    apply encode_Topics_order.
  - intros now. unfold export_data, json.MarshalIndent.
    assert (export_file ord1 excludeInternal now topics
            = export_file ord2 excludeInternal now topics) as ->.
    { unfold export_file. f_equal.
      apply (export_topics_order_irrelevant ord1 ord2 _ now now). }
    by rewrite (encode_ExportFile_order _ ord1 _ ord2
                  (export_loop ord2 excludeInternal topics).2).
Qed.
End stable_bytes.

(** * Instances: one sorting algorithm, one iteration order, one fold table *)

(** Insertion sort, the algorithm [sort.Slice] runs on short slices. *)
Fixpoint insert_by {A} (less : A → A → bool) (x : A) (l : list A) : list A :=
  match l with
  | [] => [x]
  | y :: l' => if less x y then x :: l else y :: insert_by less x l'
  end.

Definition insertion_sort {A} (less : A → A → bool) (l : list A) : list A :=
  foldl (λ acc x, insert_by less x acc) [] l.

Lemma insert_by_perm {A} (less : A → A → bool) x l : insert_by less x l ≡ₚ x :: l.
Proof.
  induction l as [|y l IH]; simpl; [done|].
  destruct (less x y); [done|]. rewrite IH. apply Permutation_swap.
Qed.

Lemma insertion_sort_perm {A} (less : A → A → bool) l : insertion_sort less l ≡ₚ l.
Proof.
  unfold insertion_sort.
  enough (∀ acc, foldl (λ acc x, insert_by less x acc) acc l ≡ₚ l ++ acc) as E
    by (rewrite E; by rewrite app_nil_r).
  induction l as [|x l IH]; intros acc; simpl; [done|].
  rewrite IH, insert_by_perm. by rewrite Permutation_middle.
Qed.

Lemma insert_by_sorted {A} (less : A → A → bool) x l :
  StrictWeak less →
  StronglySorted (λ a b, less b a = false) l →
  StronglySorted (λ a b, less b a = false) (insert_by less x l).
Proof.
  intros SW. induction 1 as [|y l Hl IH Hy]; simpl.
  - repeat constructor.
  - destruct (less x y) eqn:E.
    + assert (less y x = false) as Eyx.
      { destruct (less y x) eqn:E'; [|done].
        rewrite <- (sw_irrefl _ SW x). symmetry. by apply (sw_trans _ SW x y x). }
      constructor; [by constructor|].
      constructor; [done|].
      eapply Forall_impl; [exact Hy|]. simpl. intros b Hb.
      by apply (sw_incomp _ SW b y x).
    + constructor; [done|].
      rewrite insert_by_perm. by constructor.
Qed.

Lemma insertion_sort_sorted {A} (less : A → A → bool) l :
  StrictWeak less → StronglySorted (λ a b, less b a = false) (insertion_sort less l).
Proof.
  intros SW. unfold insertion_sort.
  enough (∀ acc, StronglySorted (λ a b, less b a = false) acc →
            StronglySorted (λ a b, less b a = false)
              (foldl (λ acc x, insert_by less x acc) acc l)) as E
    by (apply E; constructor).
  induction l as [|x l IH]; intros acc Hacc; simpl; [done|].
  apply IH. by apply insert_by_sorted.
Qed.

Definition insertion_Sorter : Sorter :=
  {| sort_by := @insertion_sort;
     sort_by_perm := @insertion_sort_perm;
     sort_by_sorted := @insertion_sort_sorted |}.

(** The runtime that visits every map in key-hash order, and the one that
    visits it the other way round. *)
Definition forward_order : RangeOrder :=
  {| range_of := λ V _ m, map_to_list m;
     range_of_perm := λ V _ m, reflexivity (map_to_list m) |}.

Definition backward_order : RangeOrder :=
  {| range_of := λ V _ m, reverse (map_to_list m);
     range_of_perm := λ V _ m, reverse_Permutation (map_to_list m) |}.

(** A fold table that knows the ASCII letters only. *)
Definition ascii_Unicode : Unicode := {| foldRune := λ r, r |}.

(** ** What an export leaves behind *)

Lemma exportTopics_spec `{Sorter} ord broker out excl w c :
  w_net w !! broker = Some c →
  cl_list_error c = None →
  out ∉ w_denied w →
  exportTopics ord broker out excl w
  = (None,
     mkWorld (w_net w)
             (<[out := export_data ord excl (w_now w) (cl_topics c)]> (w_files w))
             (w_denied w) (w_now w) (w_stdout w) (w_stderr w)
             (w_calls w ++ [(broker, CallOpen); (broker, CallListTopics); (broker, CallClose)])).
Proof.
  intros Hc Hl Hout. unfold exportTopics. rewrite (with_admin_spec _ _ _ c) by done.
  unfold ListTopics, WriteFile, log_call, world_after, bind, ret.
  cbn [w_net w_files w_denied w_now w_stdout w_stderr w_calls].
  rewrite Hc, Hl. cbn [w_net w_files w_denied w_now w_stdout w_stderr w_calls].
  rewrite decide_False by done.
  cbn [w_net w_files w_denied w_now w_stdout w_stderr w_calls].
  by rewrite !app_nil_r, <- !app_assoc.
Qed.

(** ** A cluster, two snapshots and a world to run the program in *)

Definition demo_detail (partitions : Z) : TopicDetail :=
  {| NumPartitions := partitions;
     TD_ReplicationFactor := 1;
     ConfigEntries := {[ "cleanup.policy" := Some "compact"; "retention.ms" := None ]} |}.

Definition src_topics : gmap string TopicDetail :=
  {[ "zeta" := demo_detail 3; "alpha" := demo_detail 1; "mid" := demo_detail 2;
     "__consumer_offsets" := demo_detail 50 ]}.

(** The target cluster has [orders] and refuses a topic without
    partitions. *)
Definition dst_cluster : Cluster :=
  {| cl_topics := {[ "orders" := demo_detail 3 ]};
     cl_refuse := λ _ detail,
       if NumPartitions detail <=? 0 then Some ErrInvalidPartitions else None;
     cl_list_error := None |}.

Definition demo_topic (name : string) (partitions : Z) : Topic :=
  mkTopic name partitions 1 (Some {[ "cleanup.policy" := "compact" ]}).

Definition orders_snapshot : ExportFile :=
  mkExportFile "2.4.0" "2024-05-01T10:00:00Z"
    (Some [demo_topic "alpha" 1; demo_topic "orders" 3; demo_topic "zeta" 2]).

Definition bad_snapshot : ExportFile :=
  mkExportFile "2.4.0" "2024-05-01T10:00:00Z"
    (Some [demo_topic "alpha" 1; demo_topic "bad" 0; demo_topic "zeta" 2]).

Definition text_of (f : ExportFile) : string :=
  match @json.MarshalIndent insertion_Sorter (reflect_ExportFile forward_order 0 f) with
  | Ok data => data
  | Err _ => ""
  end.

Definition demo_world : World :=
  {| w_net := {[ "dst:9092" := dst_cluster ]};
     w_files := {[ "orders.json" := text_of orders_snapshot;
                   "bad.json" := text_of bad_snapshot;
                   "broken.json" := "{ not json" ]};
     w_denied := {[ "secret.json" ]};
     w_now := "2024-05-01T10:00:00Z";
     w_stdout := [];
     w_stderr := [];
     w_calls := [] |}.

(** ** Runs *)

Lemma export_normalizes_configs_witness :
  ∃ detail cfg,
    src_topics !! "alpha" = Some detail ∧
    Some ({[ "cleanup.policy" := "compact"; "retention.ms" := "" ]} : gmap string string)
    = Some cfg ∧
    ∀ k, cfg !! k = match ConfigEntries detail !! k with
                    | Some (Some v) => Some v
                    | Some None => Some ""
                    | None => None
                    end.
Proof.
  apply (@export_normalizes_configs insertion_Sorter backward_order true "2024-05-01T10:00:00Z"
           src_topics
           (mkTopic "alpha" 1 1 (Some {[ "cleanup.policy" := "compact"; "retention.ms" := "" ]}))).
  vm_compute. constructor.
Defined.

Lemma import_bad_input_witness :
  @importTopics ascii_Unicode forward_order "dst:9092" "broken.json" true demo_world
  = (Some SyntaxError,
     world_after demo_world (w_net demo_world) []
       [("dst:9092", CallOpen); ("dst:9092", CallClose)]).
Proof.
  apply (@import_bad_input_touches_nothing ascii_Unicode).
  - by eexists.
  - vm_compute. reflexivity.
Defined.

(** The target cluster once [alpha] was created. *)
Definition dst_after_alpha : Cluster :=
  mkCluster (<["alpha" := detail_of (demo_topic "alpha" 1)]> (cl_topics dst_cluster))
            (cl_refuse dst_cluster) (cl_list_error dst_cluster).

Lemma import_fail_fast_witness :
  @importTopics ascii_Unicode forward_order "dst:9092" "orders.json" false demo_world
  = (Some ErrTopicAlreadyExists,
     world_after demo_world (<["dst:9092" := dst_after_alpha]> (w_net demo_world))
       (created_notice ∘ Name <$> [demo_topic "alpha" 1])
       (("dst:9092", CallOpen)
        :: (create_call "dst:9092" <$> [demo_topic "alpha" 1] ++ [demo_topic "orders" 3])
        ++ [("dst:9092", CallClose)]))
  ∧ dom (cl_topics dst_after_alpha)
    = dom (cl_topics dst_cluster) ∪ list_to_set (Name <$> [demo_topic "alpha" 1]).
Proof.
  apply (@import_fail_fast ascii_Unicode forward_order "dst:9092" "orders.json" demo_world
           dst_cluster dst_after_alpha orders_snapshot
           [demo_topic "alpha" 1] [demo_topic "zeta" 2] (demo_topic "orders" 3)).
  - reflexivity.
  - vm_compute. reflexivity.
  - reflexivity.
  - reflexivity.
  - by eexists.
Defined.

Lemma codec_roundtrip_witness :
  ∃ data,
    @json.MarshalIndent insertion_Sorter (reflect_ExportFile backward_order 0 orders_snapshot)
    = Ok data ∧
    @Unmarshal ascii_Unicode data zero_ExportFile = Ok (read_back orders_snapshot).
Proof.
  apply (@codec_roundtrip insertion_Sorter ascii_Unicode). vm_compute. reflexivity.
Defined.

(** A document whose only topic is named by the single byte 0xFF. *)
Definition latin1_snapshot : ExportFile :=
  mkExportFile "2.4.0" "2024-05-01T10:00:00Z"
    (Some [mkTopic (String "255"%char "") 1 1 None]).

(** C7 for every document does not hold: a byte that is not valid UTF-8
    is written as the escape of U+FFFD and comes back as the three bytes
    EF BF BD of that rune, so the topic name read back differs from the
    one written. *)
Lemma codec_roundtrip_counterexample :
  ∃ data back,
    @json.MarshalIndent insertion_Sorter (reflect_ExportFile forward_order 0 latin1_snapshot)
    = Ok data ∧
    @Unmarshal ascii_Unicode data zero_ExportFile = Ok back ∧
    Name <$> slice_elems (Topics back) = [String "239"%char (String "191"%char (String "189"%char ""))] ∧
    Name <$> slice_elems (Topics back) ≠ Name <$> slice_elems (Topics latin1_snapshot).
Proof.
  eexists _, _. split; [vm_compute; reflexivity|].
  split; [vm_compute; reflexivity|]. split; [reflexivity|]. discriminate.
Qed.

(** C1, the defect. With [ifNotExists] set the loop never returns an
    error: a creation the cluster refuses for any reason is reported as a
    topic that exists and the loop goes on. Here the cluster refuses [bad]
    with [ErrInvalidPartitions]; import prints the skip notice for it,
    creates [zeta] after it and returns nil. *)
Theorem import_skips_every_error :
  fst (cluster_create dst_cluster "bad" (detail_of (demo_topic "bad" 0)) false)
  = Some ErrInvalidPartitions ∧
  ∃ w',
    @importTopics ascii_Unicode forward_order "dst:9092" "bad.json" true demo_world
    = (None, w') ∧
    w_stdout w' = [created_notice "alpha"; skip_notice "bad"; created_notice "zeta"] ∧
    w_calls w' = ("dst:9092", CallOpen)
                 :: (create_call "dst:9092"
                       <$> [demo_topic "alpha" 1; demo_topic "bad" 0; demo_topic "zeta" 2])
                 ++ [("dst:9092", CallClose)].
Proof.
  split; [reflexivity|]. eexists. split; [vm_compute; reflexivity|].
  split; vm_compute; reflexivity.
Qed.

(** The [default] branch of [main] (lines 183-185): one line on standard
    output, nothing on standard error, no request to any cluster, and the
    function returns, which ends the process with status 0. *)
Lemma main_default_branch `{Sorter} `{Unicode} `{FlagPackage}
    (ord : RangeOrder) (prog cmd : string) (rest : list string) (w : World) :
  cmd ≠ "export" → cmd ≠ "import" →
  main ord (prog :: cmd :: rest) w
  = (0, world_after w (w_net w) ["支持命令: export / import"] []).
Proof.
  intros Hexp Himp. unfold main.
  apply String.eqb_neq in Hexp, Himp. rewrite Hexp, Himp.
  unfold bind, Print, ret, world_after. by rewrite app_nil_r.
Qed.

(** C2, the defect. The unknown command [delete] prints the line of
    supported commands and the process ends with status 0, not with a
    non-zero status. *)
Theorem main_unknown_command_exits_zero `{Sorter} `{Unicode} `{FlagPackage}
    (ord : RangeOrder) (prog : string) (rest : list string) (w : World) :
  main ord (prog :: "delete" :: rest) w
  = (0, world_after w (w_net w) ["支持命令: export / import"] []).
Proof. by apply main_default_branch. Qed.

(** The sibling path: without a command the usage is printed and the
    status is 1. *)
Lemma main_no_command_exits_one `{Sorter} `{Unicode} `{FlagPackage}
    (ord : RangeOrder) (prog : string) (w : World) :
  main ord [prog] w = (1, world_after w (w_net w) usage_lines []).
Proof.
  unfold main, print_all, usage_lines, bind, Print, ret, world_after. simpl.
  by rewrite app_nil_r, <- !app_assoc.
Qed.

(** ** Checks on small inputs *)

Example string_lt_is_byte_order :
  string_lt "alpha" "mid" = true ∧ string_lt "Zeta" "alpha" = true ∧
  string_lt "a" "ab" = true ∧ string_lt "mid" "mid" = false.
Proof. repeat split; reflexivity. Qed.

Example is_internal_examples :
  is_internal "__consumer_offsets" = true ∧ is_internal "__" = true ∧
  is_internal "_" = false ∧ is_internal "_a_" = false ∧ is_internal "" = false.
Proof. repeat split; reflexivity. Qed.

(** The topics [zeta], [alpha], [mid] and an internal one, exported. *)
Example export_orders_by_name :
  Name <$> slice_elems (Topics (@export_file insertion_Sorter backward_order true
                                  "2024-05-01T10:00:00Z" src_topics))
  = ["alpha"; "mid"; "zeta"].
Proof. vm_compute. reflexivity. Qed.

Example export_keeps_internal_on_request :
  Name <$> slice_elems (Topics (@export_file insertion_Sorter forward_order false
                                  "2024-05-01T10:00:00Z" src_topics))
  = ["__consumer_offsets"; "alpha"; "mid"; "zeta"].
Proof. vm_compute. reflexivity. Qed.

(** An empty cluster exports a nil slice, written as [null]. *)
Example export_of_nothing :
  Topics (@export_file insertion_Sorter forward_order true "2024-05-01T10:00:00Z" ∅) = None.
Proof. reflexivity. Qed.

(** Both walks of the maps write the same file. *)
Example export_same_bytes :
  @export_data insertion_Sorter forward_order true "2024-05-01T10:00:00Z" src_topics
  = @export_data insertion_Sorter backward_order true "2024-05-01T10:00:00Z" src_topics.
Proof. vm_compute. reflexivity. Qed.

(** What is exported from one cluster and imported into an empty one is
    there afterwards. *)
Example export_then_import :
  let w0 := mkWorld {[ "src:9092" := mkCluster src_topics (λ _ _, None) None;
                       "new:9092" := mkCluster ∅ (λ _ _, None) None ]}
                    ∅ ∅ "2024-05-01T10:00:00Z" [] [] [] in
  let '(e1, w1) := @exportTopics insertion_Sorter forward_order "src:9092" "topics.json" true w0 in
  let '(e2, w2) := @importTopics ascii_Unicode backward_order "new:9092" "topics.json" false w1 in
  e1 = None ∧ e2 = None ∧
  (cl_topics <$> w_net w2 !! "new:9092")
  = Some ({[ "alpha" := mkTopicDetail 1 1 {[ "cleanup.policy" := Some "compact";
                                             "retention.ms" := Some "" ]};
             "mid" := mkTopicDetail 2 1 {[ "cleanup.policy" := Some "compact";
                                           "retention.ms" := Some "" ]};
             "zeta" := mkTopicDetail 3 1 {[ "cleanup.policy" := Some "compact";
                                            "retention.ms" := Some "" ]} ]}
            : gmap string TopicDetail).
Proof. vm_compute. repeat split; reflexivity. Qed.
